(** * ecPoint-PyCal: the point-data-table engine

    A shallow embedding of [core/computations/utils.py] (the numeric
    operator library) and of [core/processor/__init__.py] (the case
    runner: lead-time resolver, computation partitioner, masking and row
    assembly), with the properties the specification states about them.

    Floating-point values are idealised as rationals [Q]; results over
    rationals are compared with [==] ([Qeq]).  Python integers are [Z]. *)

From Stdlib Require Import QArith Qabs ZArith Lia Lqa Sorted.
From stdpp Require Import gmap strings list pretty.

(** * core/computations/utils.py *)

Module Utils.

Local Open Scope Q_scope.

(** ** Values the operators work on

    The operators are written against whatever supports [+], [-], [*]
    and [/]: a scalar, a numpy array, a [Fieldset].  The class collects
    the operations the source uses; scalars and arrays are instances. *)

Class Arith (V : Type) := {
  vadd  : V -> V -> V;   (* a + b *)
  vsub  : V -> V -> V;   (* a - b *)
  vdiv  : V -> V -> V;   (* a / b *)
  vmulq : V -> Q -> V;   (* a * 0.5 *)
  vdivq : V -> Q -> V;   (* a / 86400.0 *)
}.

#[export] Instance scalar_arith : Arith Q := {|
  vadd := Qplus; vsub := Qminus; vdiv := Qdiv;
  vmulq := Qmult; vdivq := Qdiv;
|}.

(** Elementwise operation of two same-shaped arrays. *)
Fixpoint map2 {A B C} (f : A -> B -> C) (l1 : list A) (l2 : list B) : list C :=
  match l1, l2 with
  | x :: l1', y :: l2' => f x y :: map2 f l1' l2'
  | _, _ => []
  end.

#[export] Instance array_arith : Arith (list Q) := {|
  vadd := map2 Qplus; vsub := map2 Qminus; vdiv := map2 Qdiv;
  vmulq := fun a q => List.map (fun x => x * q) a;
  vdivq := fun a q => List.map (fun x => x / q) a;
|}.

(** ** Tuple indexing as Python does it

    [args[0]] and [args[-1]] raise [IndexError] on an empty tuple
    ([None] here); a slice never raises. *)

Definition first_item {V} (args : list V) : option V := List.hd_error args.

Definition last_item {V} (args : list V) : option V := List.hd_error (List.rev args).

(** [args[lo:hi]] for [0 <= lo] and [0 <= hi]. *)
Definition slice {V} (lo hi : nat) (args : list V) : list V :=
  List.firstn (hi - lo) (List.skipn lo args).

(** [reduce(operator.add, items, init)]. *)
Definition reduce_add {V} `{Arith V} (items : list V) (init : V) : V :=
  List.fold_left vadd items init.

(** ** The operators *)



Definition compute_weighted_average_field {V} `{Arith V} (args : list V) : option V :=
  match first_item args, last_item args with
  | Some a0, Some al =>
      let weighted_sum_of_first_and_last_items := vadd (vmulq a0 0.5) (vmulq al 0.5) in
      let items_excluding_first_and_last := slice 1 (length args - 1) args in
      match items_excluding_first_and_last with
      | _ :: _ =>
          let total_sum :=
            reduce_add items_excluding_first_and_last
                       weighted_sum_of_first_and_last_items in
          let total_weight :=
            inject_Z (Z.of_nat (length items_excluding_first_and_last)) * 1 + 2 * 0.5 in
          Some (vdivq total_sum total_weight)
      | [] => Some weighted_sum_of_first_and_last_items
      end
  | _, _ => None
  end.

(** [reduce(operator.add, args)] without an initial value raises
    [TypeError] on an empty tuple. *)
Definition compute_average_field {V} `{Arith V} (args : list V) : option V :=
  match args with
  | [] => None
  | a0 :: rest =>
      Some (vdivq (List.fold_left vadd rest a0) (inject_Z (Z.of_nat (length args))))
  end.

Definition compute_ratio_field {V} `{Arith V} (dividend divisor : V) : V :=
  vdiv dividend divisor.

Definition compute_instantaneous_field_100 {V} (args : list V) : option V :=
  first_item args.

Definition compute_instantaneous_field_001 {V} (args : list V) : option V :=
  last_item args.

Definition compute_instantaneous_field_010 {V} (args : list V) : option V :=
  List.nth_error args (length args / 2).

(** ** Local solar time

    numpy comparisons give boolean arrays; a boolean multiplied with a
    number counts as 1 or 0. *)

Definition b2q (b : bool) : Q := if b then 1 else 0.

Definition q_ge (x y : Q) : bool := if Qlt_le_dec x y then false else true.
Definition q_gt (x y : Q) : bool := if Qlt_le_dec y x then true else false.
Definition q_lt (x y : Q) : bool := if Qlt_le_dec x y then true else false.
Definition q_ne (x y : Q) : bool := if Qeq_dec x y then false else true.

(** [a * (a `cmp` c)]: an array times the boolean array of a comparison
    of another array with a scalar. *)
Definition times_test (a b : list Q) (test : Q -> bool) : list Q :=
  map2 (fun x y => x * b2q (test y)) a b.

Definition compute_local_solar_time (longitudes : list Q) (hour : Z) : list Q :=
  let h := inject_Z hour in
  (* Select values at the right of the Greenwich Meridian *)
  let temp_lonPos := times_test longitudes longitudes (fun x => q_ge x 0) in
  (* Compute the time difference between the local place and the Greenwich Meridian *)
  let lstPos := List.map (fun x => h + x / 15) temp_lonPos in
  (* Put back to zero the values that are not part of the subset *)
  let lstPos := times_test lstPos temp_lonPos (fun x => q_ne x 0) in
  (* Adjust the times that appear bigger than 24 *)
  let temp_lstPosMore24 :=
    List.map (fun x => x - 24) (times_test lstPos lstPos (fun x => q_ge x 24)) in
  let temp_lstPosMore24 :=
    times_test temp_lstPosMore24 temp_lstPosMore24 (fun x => q_gt x 0) in
  (* Restore the dataset *)
  let tempPos :=
    map2 Qplus (times_test lstPos lstPos (fun x => q_lt x 24)) temp_lstPosMore24 in
  (* Select values at the left of the Greenwich Meridian *)
  let temp_lonNeg := times_test longitudes longitudes (fun x => q_lt x 0) in
  let lstNeg := List.map (fun x => h - Qabs (x / 15)) temp_lonNeg in
  let lstNeg := times_test lstNeg temp_lonNeg (fun x => q_ne x 0) in
  (* Adjust the times that appear smaller than 0 *)
  let temp_lstNegLess0 :=
    List.map (fun x => x + 24) (times_test lstNeg lstNeg (fun x => q_lt x 0)) in
  let temp_lstNegLess0 :=
    times_test temp_lstNegLess0 temp_lstNegLess0 (fun x => q_ne x 24) in
  (* Restore the dataset *)
  let tempNeg :=
    map2 Qplus (times_test lstNeg lstNeg (fun x => q_gt x 0)) temp_lstNegLess0 in
  (* Combine both subsets *)
  map2 Qplus tempPos tempNeg.

(** The same computation at one point: what the array code does to each
    entry ([local_solar_time_pointwise] below). *)
Definition lst_pos (lon h : Q) : Q :=
  let temp_lonPos := lon * b2q (q_ge lon 0) in
  let lstPos := (h + temp_lonPos / 15) * b2q (q_ne temp_lonPos 0) in
  let more24 := lstPos * b2q (q_ge lstPos 24) - 24 in
  let more24 := more24 * b2q (q_gt more24 0) in
  lstPos * b2q (q_lt lstPos 24) + more24.

Definition lst_neg (lon h : Q) : Q :=
  let temp_lonNeg := lon * b2q (q_lt lon 0) in
  let lstNeg := (h - Qabs (temp_lonNeg / 15)) * b2q (q_ne temp_lonNeg 0) in
  let less0 := lstNeg * b2q (q_lt lstNeg 0) + 24 in
  let less0 := less0 * b2q (q_ne less0 24) in
  lstNeg * b2q (q_gt lstNeg 0) + less0.

Definition lst_point (hour : Z) (lon : Q) : Q :=
  lst_pos lon (inject_Z hour) + lst_neg lon (inject_Z hour).

End Utils.

(** * core/processor/__init__.py *)

Module Processor.

Local Open Scope Z_scope.

(** ** Configuration (the parts of [Config] that [run] reads) *)

Record Computation := {
  shortname : string;
  fullname : string;
  field : string;              (* the kind: "WEIGHTED_AVERAGE_FIELD", ... *)
  inputs : list string;        (* input["code"] of each input, in order *)
  isPostProcessed : bool;
  addScale : Q;
  mulScale : Q;
}.

#[export] Instance Q_eq_dec : EqDecision Q.
Proof. solve_decision. Defined.

#[export] Instance Computation_eq_dec : EqDecision Computation.
Proof. solve_decision. Defined.

(** Dates are day ordinals; hours, steps and intervals are integers. *)
Record Config := {
  date_start : Z;               (* config.parameters.date_start *)
  date_end : Z;                 (* config.parameters.date_end *)
  predictand_code : string;     (* config.predictand.code *)
  accumulation : Z;             (* config.predictand.accumulation *)
  is_accumulated : bool;        (* config.predictand.is_accumulated *)
  min_value : Q;                (* config.predictand.min_value *)
  error : string;               (* config.predictand.error *)
  predictors_path : string;     (* config.predictors.path *)
  predictors_codes : list string;
  sampling_interval : Z;        (* config.predictors.sampling_interval *)
  observations_path : string;   (* config.observations.path *)
  computations : list Computation;
}.

(** One item of [iter_daterange]: (curr_date, curr_time, step_s, case). *)
Record Case := {
  curr_date : Z;
  curr_time : Z;
  step_s : Z;
  case_no : Z;
}.

(** ** Python helpers *)

(** [f"{n:02d}"]. *)
Definition fmt02 (n : Z) : string :=
  if bool_decide (0 <= n < 10) then "0" +:+ pretty n else pretty n.

(** [list(range(start, stop, step))]; [range] raises [ValueError] when
    the step is zero. *)
Definition py_range (start stop step : Z) : option (list Z) :=
  if bool_decide (step = 0) then None
  else
    let n :=
      if bool_decide (0 < step)
      then (stop - start + step - 1) `div` step
      else (start - stop - step - 1) `div` (- step) in
    Some (List.map (fun i => start + Z.of_nat i * step) (seq 0 (Z.to_nat n))).

(** [sorted(l, key=..., reverse=True)] for a boolean key: a stable
    insertion into descending key order (an item goes behind the items
    whose key is not smaller, so equal keys keep their order). *)
Fixpoint insert_desc {A} (key : A -> bool) (x : A) (sorted : list A) : list A :=
  match sorted with
  | [] => [x]
  | y :: rest =>
      if negb (key y) && key x then x :: y :: rest
      else y :: insert_desc key x rest
  end.

Definition sorted_reverse {A} (key : A -> bool) (l : list A) : list A :=
  List.fold_left (fun sorted x => insert_desc key x sorted) l [].

(** [pathlib]'s [/]. *)
Definition path_join (a b : string) : string := a +:+ "/" +:+ b.

(** ** Lead-time resolver (lines 268-302) *)

Definition lead_times (config : Config) (computation : Computation) (step_s : Z)
  : option (list Z) :=
  let acc := accumulation config in
  if negb (is_accumulated config) then Some [step_s]
  else if bool_decide (field computation = "24H_SOLAR_RADIATION") then
    if bool_decide (acc = 24) then Some [step_s; step_s + acc]
    else if bool_decide (step_s + acc <= 24) then Some [0; 24]
    else Some [step_s + acc - 24; step_s + acc]
  else if bool_decide (field computation ∈ ["WEIGHTED_AVERAGE_FIELD"; "AVERAGE_FIELD"]) then
    py_range step_s (step_s + acc + 1) (sampling_interval config)
  else if bool_decide (field computation ∈ ["MAXIMUM_FIELD"; "MINIMUM_FIELD"]) then
    py_range (step_s + sampling_interval config) (step_s + acc + 1)
             (sampling_interval config)
  else Some [step_s; step_s + acc].

(** ** Computation partitioner (lines 222-254) *)

(** The [is_reference] attribute the runner sets on every computation
    at each case: a function of the computation and the predictand. *)
Definition is_reference (config : Config) (computation : Computation) : bool :=
  bool_decide (length (inputs computation) = 1%nat)
  && bool_decide (List.hd_error (inputs computation) = Some (predictand_code config)).

Definition base_fields (config : Config) : gset string :=
  list_to_set (predictors_codes config).

Definition is_derived (config : Config) (computation : Computation) : bool :=
  bool_decide ((list_to_set (inputs computation) : gset string) ∖ base_fields config ≠ ∅)
  && isPostProcessed computation
  && bool_decide (field computation ≠ "LOCAL_SOLAR_TIME").

Definition derived_computations (config : Config) : list Computation :=
  List.filter (is_derived config) (computations config).

Definition base_computations (config : Config) : list Computation :=
  sorted_reverse (is_reference config)
    (List.filter
       (fun computation =>
          bool_decide (computation ∉ derived_computations config)
          && bool_decide (field computation ≠ "LOCAL_SOLAR_TIME"))
       (computations config)).

(** ** Observation sets

    A geopoints set is a sequence of (latitude, longitude, value). *)

Record Point := { lat : Q; lon : Q; val : Q }.

Definition Geopoints := list Point.

Definition get_geopoints_values (g : Geopoints) : list Q := List.map val g.
Definition latitudes (g : Geopoints) : list Q := List.map lat g.
Definition longitudes (g : Geopoints) : list Q := List.map lon g.

(** Modelled from the spec: [Geopoints.__ge__] of
    [core/loaders/geopoints.py], which is not among the sources.
    [build_mask]: one element per observation, true iff the value is at
    least [min_value]. *)
Definition build_mask (g : Geopoints) (min_value : Q) : list bool :=
  List.map (fun p => Utils.q_ge (val p) min_value) g.

(** Modelled from the spec: [Geopoints.filter] of
    [core/loaders/geopoints.py], which is not among the sources.
    [apply]: the subsequence at the mask-true positions, in order. *)
Fixpoint filter_mask {A} (mask : list bool) (l : list A) : list A :=
  match mask, l with
  | b :: mask', x :: l' =>
      if b then x :: filter_mask mask' l' else filter_mask mask' l'
  | _, _ => []
  end.

(** Modelled from the spec: the elementwise arithmetic of two
    observation sets ([Geopoints.__sub__], [Geopoints.__truediv__]),
    on the values, keeping the coordinates of the left operand. *)
Definition geopoints_op (f : Q -> Q -> Q) (a b : Geopoints) : Geopoints :=
  Utils.map2 (fun p q => {| lat := lat p; lon := lon p; val := f (val p) (val q) |}) a b.

(** ** Values at run time

    What [Computer.run] takes and returns: a [Fieldset], a numpy array
    or an integer. *)
Inductive value (F : Type) :=
| VField (f : F)
| VArray (a : list Q)
| VInt (n : Z).
Arguments VField {F} f.
Arguments VArray {F} a.
Arguments VInt {F} n.

(** The result of reading a file: the value, [IOError], or another
    exception. *)
Inductive read_result (A : Type) :=
| ROk (a : A)
| RIOError
| RException.
Arguments ROk {A} a.
Arguments RIOError {A}.
Arguments RException {A}.

(** ** The collaborators of the runner

    The file system, the grid library and [Computer] are taken as they
    come: [run] only calls them. *)
Class World := {
  Fieldset : Type;
  (* date.strftime(format), the date given as its ordinal *)
  strftime : string -> Z -> string;
  (* read_geopoints(path=...) *)
  read_geopoints : string -> read_result Geopoints;
  (* Fieldset.from_path(path=...) *)
  from_path : string -> read_result Fieldset;
  (* the value of the grid point nearest to (latitude, longitude) *)
  nearest_value : Fieldset -> Q -> Q -> Q;
  (* fieldset.values *)
  field_values : Fieldset -> list Q;
  (* Computer(computation).run on the arguments; None when it raises *)
  computer_run : Computation -> list (value Fieldset) -> option (value Fieldset);
  (* np.around(x, decimals=3) *)
  np_around : Q -> Q;
}.

(** ** Events the runner produces *)

Inductive level := INFO | WARNING | ERROR.

(** The log messages, by their text in the source, with the values
    they interpolate (blank lines and section titles are left out). *)
Inductive message :=
| MCase (case : Z)                       (* Case {case} *)
| MForecast (forecast : string)          (* {forecast} *)
| MAlreadyConsidered (case : Z)          (* The above forecast was already considered ... in Case {n} *)
| MOutOfPeriod                           (* Forecast out of the calibration period ... *)
| MReadObservation (path : string)       (* Read observation file: ... *)
| MObservationNotFound (path : string)   (* Observation file not found in DB: ... *)
| MObservationReadError (path : string)  (* Error reading observation file: ... *)
| MNoObservation (path : string)         (* No observation in the file: ... *)
| MReadingForecast (path : string)       (* Reading forecast file: ... *)
| MForecastNotFound (path : string)      (* Forecast file not found: ... *)
| MForecastReadFailed (path : string)    (* Reading forecast file failed: ... *)
| MComputing (fullname : string) (n : nat) (* Computing ... using n input(s). *)
| MNearest                               (* Selecting the nearest grid point to observations. *)
| MSelecting (shortname : string)        (* Selecting values that correspond to ... >= ... *)
| MNoRetained (shortname : string)       (* The observation file does not contain observations ... *)
| MComputingError (error : string)       (* Computing the {error}. *)
| MSaving.                               (* Saving the point data table to output file: ... *)

Inductive cell := CStr (s : string) | CInt (n : Z) | CNum (q : Q).

(** The argument of [serializer.add_columns_chunk]. *)
Definition Columns := list (string * list cell).

Inductive event :=
| Log (lv : level) (msg : message)
| ReadObservationFile (path : string)
| ReadForecastFile (path : string)
| AddColumnsChunk (columns : Columns).

Inductive exception :=
| IndexError | KeyError | ValueError | NameError | AttributeError | TypeError
| ComputerError.

(** ** The state of a run

    The variables of [run] that live across cases.  [mask],
    [ref_geopoints] and [ref_code] are function-level names in Python:
    unbound ([None]) until first assigned, and then kept from one case
    to the next. *)
Record RunState := {
  counter_used_FC : gmap string Z;
  obsTOT : Z;
  obsUSED : Z;
  mask : option (list bool);
  ref_geopoints : option Geopoints;
  ref_code : option string;
  trace : list event;
}.

Definition initial_state : RunState := {|
  counter_used_FC := ∅; obsTOT := 0; obsUSED := 0;
  mask := None; ref_geopoints := None; ref_code := None; trace := [];
|}.

Definition emit (e : event) (st : RunState) : RunState :=
  {| counter_used_FC := counter_used_FC st; obsTOT := obsTOT st; obsUSED := obsUSED st;
     mask := mask st; ref_geopoints := ref_geopoints st; ref_code := ref_code st;
     trace := trace st ++ [e] |}.

Definition set_counter (forecast : string) (case : Z) (st : RunState) : RunState :=
  {| counter_used_FC := <[forecast := case]> (counter_used_FC st);
     obsTOT := obsTOT st; obsUSED := obsUSED st;
     mask := mask st; ref_geopoints := ref_geopoints st; ref_code := ref_code st;
     trace := trace st |}.

Definition add_obsTOT (n : Z) (st : RunState) : RunState :=
  {| counter_used_FC := counter_used_FC st; obsTOT := obsTOT st + n; obsUSED := obsUSED st;
     mask := mask st; ref_geopoints := ref_geopoints st; ref_code := ref_code st;
     trace := trace st |}.

Definition add_obsUSED (n : Z) (st : RunState) : RunState :=
  {| counter_used_FC := counter_used_FC st; obsTOT := obsTOT st; obsUSED := obsUSED st + n;
     mask := mask st; ref_geopoints := ref_geopoints st; ref_code := ref_code st;
     trace := trace st |}.

Definition set_mask (m : list bool) (st : RunState) : RunState :=
  {| counter_used_FC := counter_used_FC st; obsTOT := obsTOT st; obsUSED := obsUSED st;
     mask := Some m; ref_geopoints := ref_geopoints st; ref_code := ref_code st;
     trace := trace st |}.

Definition set_ref_geopoints (g : Geopoints) (st : RunState) : RunState :=
  {| counter_used_FC := counter_used_FC st; obsTOT := obsTOT st; obsUSED := obsUSED st;
     mask := mask st; ref_geopoints := Some g; ref_code := ref_code st;
     trace := trace st |}.

Definition set_ref_code (c : string) (st : RunState) : RunState :=
  {| counter_used_FC := counter_used_FC st; obsTOT := obsTOT st; obsUSED := obsUSED st;
     mask := mask st; ref_geopoints := ref_geopoints st; ref_code := Some c;
     trace := trace st |}.

(** ** Control flow of the loop body

    A step of the body of the [for] loop over the cases goes on with a
    value, leaves the body by [continue] (directly, or through
    [skip = True; break] and the [if skip] that follows each loop), or
    raises an exception nobody catches, which ends the run. *)
Inductive flow (A : Type) :=
| Normal (a : A) (st : RunState)
| Continue (st : RunState)
| Raise (exn : exception) (st : RunState).
Arguments Normal {A} a st.
Arguments Continue {A} st.
Arguments Raise {A} exn st.

Definition flow_state {A} (f : flow A) : RunState :=
  match f with
  | Normal _ st => st
  | Continue st => st
  | Raise _ st => st
  end.

Definition M (A : Type) : Type := RunState -> flow A.

Definition ret {A} (a : A) : M A := fun st => Normal a st.

Definition bind {A B} (m : M A) (k : A -> M B) : M B :=
  fun st =>
    match m st with
    | Normal a st' => k a st'
    | Continue st' => Continue st'
    | Raise exn st' => Raise exn st'
    end.

Notation "'let*' x ':=' m 'in' k" := (bind m (fun x => k))
  (at level 10, x name, m at level 100, k at level 200).
Notation "'do' m 'in' k" := (bind m (fun _ => k))
  (at level 10, m at level 100, k at level 200).

Definition continue {A} : M A := fun st => Continue st.
Definition raise {A} (exn : exception) : M A := fun st => Raise exn st.
Definition modify (f : RunState -> RunState) : M unit := fun st => Normal tt (f st).
Definition get {A} (f : RunState -> A) : M A := fun st => Normal (f st) st.
Definition logging (lv : level) (msg : message) : M unit := modify (emit (Log lv msg)).

(** A name that must be bound: [NameError] otherwise. *)
Definition bound {A} (f : RunState -> option A) : M A :=
  fun st => match f st with Some a => Normal a st | None => Raise NameError st end.

Definition from_option {A} (exn : exception) (o : option A) : M A :=
  match o with Some a => ret a | None => raise exn end.

(** ** The body of [run] *)

Section Run.

Context `{W : World}.
Variable config : Config.

Local Abbreviation acc := (accumulation config).

(** [predictand_min_value] (lines 103-105); [computations[0]] raises
    [IndexError] when no computation is configured. *)
Definition predictand_min_value : option Q :=
  match computations config with
  | c0 :: _ => Some ((min_value config + addScale c0) * mulScale c0)%Q
  | [] => None
  end.

(** The [forecast] string (lines 124-129): the key of [counter_used_FC]. *)
Definition forecast_key (c : Case) : string :=
  if is_accumulated config then
    strftime "%Y-%m-%d" (curr_date c) +:+ ", " +:+ fmt02 (curr_time c)
      +:+ " UTC, (t+" +:+ pretty (step_s c) +:+ ", t+" +:+ pretty (step_s c + acc) +:+ ")"
  else
    strftime "%Y-%m-%d" (curr_date c) +:+ ", " +:+ fmt02 (curr_time c)
      +:+ " UTC, (t+" +:+ pretty (step_s c) +:+ ")".

Definition get_grib_path (c : Case) (predictor_code : string) (step : Z) : string :=
  let file_name :=
    predictor_code +:+ "_" +:+ strftime "%Y%m%d" (curr_date c) +:+ "_"
      +:+ fmt02 (curr_time c) +:+ "_" +:+ fmt02 step in
  path_join
    (path_join (path_join (predictors_path config) predictor_code)
               (strftime "%Y%m%d" (curr_date c) +:+ fmt02 (curr_time c)))
    (file_name +:+ ".grib").

(** [validDateF], in hours since the ordinal 0 at 00 UTC. *)
Definition valid_hours (c : Case) : Z :=
  24 * curr_date c + curr_time c + (step_s c + acc).

Definition DateVF (c : Case) : string := strftime "%Y%m%d" (valid_hours c `div` 24).
Definition HourVF_num (c : Case) : Z := valid_hours c `mod` 24.
Definition HourVF (c : Case) : string := fmt02 (HourVF_num c).

Definition obs_path (c : Case) : string :=
  if is_accumulated config then
    path_join
      (path_join (path_join (observations_path config) ("Acc" +:+ fmt02 acc +:+ "h"))
                 (DateVF c))
      (predictand_code config +:+ "_" +:+ fmt02 acc +:+ "_" +:+ DateVF c
         +:+ "_" +:+ HourVF c +:+ ".geo")
  else
    path_join (path_join (observations_path config) (DateVF c))
      (predictand_code config +:+ "_" +:+ DateVF c +:+ "_" +:+ HourVF c +:+ ".geo").

(** Lines 199-220. *)
Definition read_observations (c : Case) : M Geopoints :=
  let path := obs_path c in
  do logging INFO (MReadObservation path) in
  do modify (emit (ReadObservationFile path)) in
  match read_geopoints path with
  | RIOError => do logging WARNING (MObservationNotFound path) in continue
  | RException => do logging ERROR (MObservationReadError path) in continue
  | ROk obs =>
      let nOBS := length obs in
      if bool_decide (nOBS = 0%nat) then
        do logging WARNING (MNoObservation path) in continue
      else
        do modify (add_obsTOT (Z.of_nat nOBS)) in
        ret obs
  end.

(** Lines 304-323: the forecast files of one computation, in the order
    of its lead times. *)
Fixpoint read_forecasts (paths : list string) (computation_steps : list Fieldset)
  : M (list Fieldset) :=
  match paths with
  | [] => ret computation_steps
  | path :: paths' =>
      do logging INFO (MReadingForecast path) in
      do modify (emit (ReadForecastFile path)) in
      match from_path path with
      | RIOError => do logging WARNING (MForecastNotFound path) in continue
      | RException => do logging ERROR (MForecastReadFailed path) in continue
      | ROk fieldset => read_forecasts paths' (computation_steps ++ [fieldset])
      end
  end.

(** Modelled from the spec: [Fieldset.nearest_gridpoint] of
    [core/loaders/fieldset.py], which is not among the sources.  One
    projected value per observation point, at the coordinates of the
    observation, independent of the other observations. *)
Definition projection (f : Fieldset) (obs : Geopoints) : Geopoints :=
  List.map (fun p => {| lat := lat p; lon := lon p;
                        val := nearest_value f (lat p) (lon p) |}) obs.

(** [computed_value.nearest_gridpoint(obs)]: a method of a [Fieldset];
    a numpy array has none. *)
Definition nearest_gridpoint (v : value Fieldset) (obs : Geopoints) : M Geopoints :=
  match v with
  | VField f => ret (projection f obs)
  | _ => raise AttributeError
  end.

(** [np.around(a, decimals=3)] of an array. *)
Definition around (a : list Q) : list Q := List.map np_around a.

(** What a case collects: [computations_cache], [computations_result]. *)
Record Locals := {
  computations_cache : gmap string (value Fieldset);
  computations_result : list (string * list Q);
}.

Definition cache_put (name : string) (v : value Fieldset) (l : Locals) : Locals :=
  {| computations_cache := <[name := v]> (computations_cache l);
     computations_result := computations_result l |}.

Definition result_append (name : string) (a : list Q) (l : Locals) : Locals :=
  {| computations_cache := computations_cache l;
     computations_result := computations_result l ++ [(name, a)] |}.

(** Lines 260-330: the forecast files of a base computation and its
    operator on them. *)
Definition compute_base (c : Case) (computation : Computation) : M (value Fieldset) :=
  let* predictor_code := from_option IndexError (List.hd_error (inputs computation)) in
  let* steps := from_option ValueError (lead_times config computation (step_s c)) in
  let* computation_steps :=
    read_forecasts (List.map (get_grib_path c predictor_code) steps) [] in
  do logging INFO (MComputing (fullname computation) (length computation_steps)) in
  from_option ComputerError
    (computer_run computation (List.map VField computation_steps)).

(** Lines 331-381: the value goes to the cache and, for a
    post-processed computation, its projection onto the observations
    goes to the results. *)
Definition pair_base (pmin : Q) (obs : Geopoints) (computation : Computation)
    (computed_value : value Fieldset) (l : Locals) : M Locals :=
  let l := cache_put (shortname computation) computed_value l in
  if negb (isPostProcessed computation) then ret l
  else
    do logging INFO MNearest in
    let* geopoints := nearest_gridpoint computed_value obs in
    if is_reference config computation then
      do modify (set_ref_code (shortname computation)) in
      do (if is_accumulated config then
            do modify (set_mask (build_mask geopoints pmin)) in
            do logging INFO (MSelecting (shortname computation)) in
            let* mask := bound mask in
            modify (set_ref_geopoints (filter_mask mask geopoints))
          else
            modify (set_ref_geopoints geopoints)) in
      let* ref_geopoints := bound ref_geopoints in
      if bool_decide (length ref_geopoints = 0%nat) then
        do (if is_accumulated config
            then logging WARNING (MNoRetained (shortname computation))
            else ret tt) in
        continue
      else
        ret (result_append (shortname computation)
               (around (get_geopoints_values ref_geopoints)) l)
    else
      let* geopoints :=
        (if is_accumulated config then
           let* mask := bound mask in ret (filter_mask mask geopoints)
         else ret geopoints) in
      ret (result_append (shortname computation)
             (around (get_geopoints_values geopoints)) l).

(** Lines 260-381: one turn of the loop over the base computations. *)
Definition base_step (pmin : Q) (c : Case) (obs : Geopoints)
    (computation : Computation) (l : Locals) : M Locals :=
  let* computed_value := compute_base c computation in
  pair_base pmin obs computation computed_value l.

Fixpoint base_loop (pmin : Q) (c : Case) (obs : Geopoints)
    (todo : list Computation) (l : Locals) : M Locals :=
  match todo with
  | [] => ret l
  | computation :: todo' =>
      let* l := base_step pmin c obs computation l in
      base_loop pmin c obs todo' l
  end.

(** [np.around] wants an array. *)
Definition as_array (v : value Fieldset) : M (list Q) :=
  match v with
  | VArray a => ret a
  | _ => raise TypeError
  end.

(** [fieldset.values]. *)
Definition values_of (v : value Fieldset) : M (list Q) :=
  match v with
  | VField f => ret (field_values f)
  | _ => raise AttributeError
  end.

(** [[computations_cache[code] for code in inputs]]. *)
Fixpoint cache_lookup (cache : gmap string (value Fieldset)) (codes : list string)
  : M (list (value Fieldset)) :=
  match codes with
  | [] => ret []
  | code :: codes' =>
      let* v := from_option KeyError (cache !! code) in
      let* vs := cache_lookup cache codes' in
      ret (v :: vs)
  end.

(** The projection of a value onto the observations, filtered by the
    mask when the predictand is accumulated (lines 403-404, 420-422). *)
Definition project (v : value Fieldset) (obs : Geopoints) : M (list Q) :=
  let* geopoints := nearest_gridpoint v obs in
  if is_accumulated config then
    let* mask := bound mask in
    ret (get_geopoints_values (filter_mask mask geopoints))
  else ret (get_geopoints_values geopoints).

(** Lines 386-426: one turn of the loop over the derived computations. *)
Definition derived_step (obs : Geopoints) (computation : Computation) (l : Locals)
  : M Locals :=
  let* steps := cache_lookup (computations_cache l) (inputs computation) in
  do logging INFO (MComputing (fullname computation) (length (inputs computation))) in
  if bool_decide (field computation = "RATIO_FIELD") then
    match steps with
    | [dividend; divisor] =>
        let* computed_value :=
          (if is_accumulated config then
             let* a := project dividend obs in
             let* b := project divisor obs in
             let* r := from_option ComputerError
                         (computer_run computation [VArray a; VArray b]) in
             as_array r
           else
             let* a := values_of dividend in
             let* b := values_of divisor in
             let* r := from_option ComputerError
                         (computer_run computation [VArray a; VArray b]) in
             project r obs) in
        ret (result_append (shortname computation) (around computed_value) l)
    | _ => raise ValueError
    end
  else
    let* computed_value := from_option ComputerError (computer_run computation steps) in
    let* a := project computed_value obs in
    ret (result_append (shortname computation) (around a) l).

Fixpoint derived_loop (obs : Geopoints) (todo : list Computation) (l : Locals)
  : M Locals :=
  match todo with
  | [] => ret l
  | computation :: todo' =>
      let* l := derived_step obs computation l in
      derived_loop obs todo' l
  end.

Definition column (name : string) (a : list Q) : string * list cell :=
  (name, List.map CNum a).

(** Lines 439-440 and 443-444: the error columns. *)
Definition FER_column (obs ref_geopoints : Geopoints) : string * list cell :=
  column "FER"
    (around (get_geopoints_values
               (geopoints_op Qdiv (geopoints_op Qminus obs ref_geopoints)
                             ref_geopoints))).

Definition FE_column (obs ref_geopoints : Geopoints) : string * list cell :=
  column "FE" (around (get_geopoints_values (geopoints_op Qminus obs ref_geopoints))).


(** Lines 435-444: [ref_geopoints] is looked up where an error is
    computed. *)
Definition compute_errors (obs : Geopoints) : M (list (string * list cell)) :=
  let* fer :=
    (if bool_decide (error config = "FER") then
       let* ref_geopoints := bound ref_geopoints in
       ret [FER_column obs ref_geopoints]
     else ret []) in
  let* fe :=
    (if bool_decide (error config = "FE") then
       let* ref_geopoints := bound ref_geopoints in
       ret [FE_column obs ref_geopoints]
     else ret []) in
  ret (fer ++ fe).

(** Lines 446-464. *)
Definition vals_LST (c : Case) (lonObs : list Q) : M (list (string * list cell)) :=
  match List.find (fun computation => bool_decide (field computation = "LOCAL_SOLAR_TIME"))
                  (computations config) with
  | Some LST_computation =>
      if isPostProcessed LST_computation then
        let* r := from_option ComputerError
                    (computer_run LST_computation [VArray lonObs; VInt (HourVF_num c)]) in
        let* a := as_array r in
        ret [column "LST" (around a)]
      else ret []
  | None => ret []
  end.

(** Lines 474-494: the columns of the chunk, [n = len(obs)] rows. *)
Definition columns_of (c : Case) (obs ref_geopoints : Geopoints)
    (errors lst : list (string * list cell)) (results : list (string * list Q))
  : Columns :=
  let n := length obs in
  [ ("BaseDate", replicate n (CStr (strftime "%Y-%m-%d" (curr_date c))));
    ("BaseTime", replicate n (CInt (curr_time c)));
    (if is_accumulated config then "StepF" else "Step", replicate n (CInt (step_s c + acc)));
    ("DateOBS", replicate n (CStr (strftime "%Y-%m-%d" (valid_hours c `div` 24))));
    ("TimeOBS", replicate n (CStr (HourVF c))) ]
  ++ [ column "LatOBS" (latitudes obs);
       column "LonOBS" (longitudes obs);
       column "OBS" (get_geopoints_values obs);
       column "Predictand" (around (get_geopoints_values ref_geopoints)) ]
  ++ errors
  ++ lst
  ++ List.map (fun r => column (fst r) (snd r)) results.

(** Lines 428-496: the rows of the case. *)
Definition assemble_rows (c : Case) (obs : Geopoints) (l : Locals) : M unit :=
  let* obs :=
    (if is_accumulated config then
       let* mask := bound mask in ret (filter_mask mask obs)
     else ret obs) in
  let latObs := latitudes obs in
  let lonObs := longitudes obs in
  do logging INFO (MComputingError (error config)) in
  let* errors := compute_errors obs in
  let* lst := vals_LST c lonObs in
  let n := length obs in
  do modify (add_obsUSED (Z.of_nat n)) in
  do logging INFO MSaving in
  let* ref_geopoints := bound ref_geopoints in
  modify (emit (AddColumnsChunk
                  (columns_of c obs ref_geopoints errors lst (computations_result l)))).

(** Lines 147-496: the case after its forecast is registered. *)
Definition process_case (pmin : Q) (c : Case) : M unit :=
  let* obs := read_observations c in
  let* l := base_loop pmin c obs (base_computations config)
              {| computations_cache := ∅; computations_result := [] |} in
  let* l := derived_loop obs (derived_computations config) l in
  assemble_rows c obs l.

(** Lines 118-146, then the rest of the body. *)
Definition run_case (pmin : Q) (c : Case) : M unit :=
  do logging INFO (MCase (case_no c)) in
  let forecast := forecast_key c in
  do logging INFO (MForecast forecast) in
  let* counter := get counter_used_FC in
  match counter !! forecast with
  | Some n =>
      do logging WARNING (MAlreadyConsidered n) in
      continue
  | None =>
      if bool_decide (curr_date c < date_start config ∨ curr_date c > date_end config) then
        do logging WARNING MOutOfPeriod in
        continue
      else
        do modify (set_counter forecast (case_no c)) in
        process_case pmin c
  end.

(** The loop over the cases [iter_daterange] yields: the next case
    starts from the state the body left, whether the body ran to its end
    or left by [continue]; an exception ends the run. *)
Fixpoint run_cases (pmin : Q) (cases : list Case) (st : RunState)
  : RunState + exception * RunState :=
  match cases with
  | [] => inl st
  | c :: cases' =>
      match run_case pmin c st with
      | Normal _ st' => run_cases pmin cases' st'
      | Continue st' => run_cases pmin cases' st'
      | Raise exn st' => inr (exn, st')
      end
  end.

(** [run], from the first case to the last (the header and the footer
    of the output file are left out). *)
Definition run (cases : list Case) : RunState + exception * RunState :=
  match predictand_min_value with
  | Some pmin => run_cases pmin cases initial_state
  | None => inr (IndexError, initial_state)
  end.

End Run.

End Processor.

(** * What the specification says, in its own words *)

Module Spec.

Local Open Scope Q_scope.

Definition Qsum (l : list Q) : Q := List.fold_right Qplus 0 l.

(** Weighted average: endpoints weighted 0.5 each, interior points 1.0
    each, divided by the total weight (number of interior points + 1). *)
Definition weighted_average (first : Q) (interior : list Q) (last : Q) : Q :=
  (0.5 * first + Qsum interior + 0.5 * last)
  / (inject_Z (Z.of_nat (length interior)) + 1).

(** The entries at index [k] of a list of arrays. *)
Definition entries (k : nat) (arrays : list (list Q)) : list Q :=
  List.map (fun a => List.nth k a 0) arrays.

(** Local solar time of one point: a point of longitude zero gives
    zero; east of Greenwich the hour plus longitude/15, less 24 when that
    reaches 24; west of Greenwich the hour minus |longitude|/15, plus 24
    when that is below 0. *)
Definition local_solar_time (hour : Z) (lon : Q) : Q :=
  let h := inject_Z hour in
  if Qeq_dec lon 0 then 0
  else if Qlt_le_dec lon 0 then
    let t := h - Qabs lon / 15 in
    if Qlt_le_dec t 0 then t + 24 else t
  else
    let t := h + lon / 15 in
    if Qlt_le_dec t 24 then t else t - 24.

Local Open Scope Z_scope.





End Spec.

(** * The case runner, told without the state

    What a case reads and computes, as plain functions of the files:
    the statements about the runner compare its state and its rows with
    these. *)

Module CaseSpec.

Import Processor.

(** The state after a sequence of events. *)
Definition emits (evs : list event) (st : RunState) : RunState :=
  List.fold_left (fun st e => emit e st) evs st.

Section Defs.

Context `{W : World}.
Variable config : Config.

(** All the files of a list of paths, when every one of them reads. *)
Fixpoint read_all (paths : list string) : option (list Fieldset) :=
  match paths with
  | [] => Some []
  | path :: paths' =>
      match from_path path with
      | ROk fieldset => cons fieldset <$> read_all paths'
      | _ => None
      end
  end.

(** The paths of the forecast files a base computation needs. *)
Definition forecast_paths (c : Case) (b : Computation) : option (list string) :=
  predictor_code ← List.hd_error (inputs b);
  steps ← lead_times config b (step_s c);
  Some (List.map (get_grib_path config c predictor_code) steps).

(** The value of a base computation in a case: its operator on its
    forecast files.  [None] when it cannot be evaluated. *)
Definition evaluate (c : Case) (b : Computation) : option (value Fieldset) :=
  paths ← forecast_paths c b;
  fields ← read_all paths;
  computer_run b (List.map VField fields).

(** The events of reading these files, one after the other. *)
Definition forecast_events (paths : list string) : list event :=
  List.flat_map (fun path => [Log INFO (MReadingForecast path); ReadForecastFile path])
                paths.





(** The state after a base computation has read its files and run its
    operator. *)
Definition after_compute (b : Computation) (paths : list string) (st : RunState)
  : RunState :=
  emit (Log INFO (MComputing (fullname b) (length paths)))
       (emits (forecast_events paths) st).




(** The state in which a case is looked up in the forecast counter. *)
Definition announced (c : Case) (st : RunState) : RunState :=
  emit (Log INFO (MForecast (forecast_key config c)))
       (emit (Log INFO (MCase (case_no c))) st).

End Defs.


Definition is_chunk (e : event) : bool :=
  match e with AddColumnsChunk _ => true | _ => false end.

(** An action leaves its state related by [R] to the state it started
    from, however it ends. *)
Definition follows {A} (R : RunState -> RunState -> Prop) (m : M A) : Prop :=
  forall st, R st (flow_state (m st)).

(** The state after an action that leaves the total of retained
    observations alone and sends nothing to the serializer. *)
Definition quietly (st st' : RunState) : Prop :=
  obsUSED st' = obsUSED st
  /\ exists evs, trace st' = trace st ++ evs /\ Forall (fun e => is_chunk e = false) evs.

(** The state after an action that sends nothing to the serializer. *)
Definition silently (st st' : RunState) : Prop :=
  exists evs, trace st' = trace st ++ evs /\ Forall (fun e => is_chunk e = false) evs.

(** The state after an action that leaves the forecast counter alone. *)
Definition keeps_counter (st st' : RunState) : Prop :=
  counter_used_FC st' = counter_used_FC st.

(** An action that sends something to the serializer only when it
    runs to its end. *)
Definition silent_unless_normal {A} (m : M A) : Prop :=
  forall st,
    match m st with
    | Normal _ _ => True
    | Continue st' => silently st st'
    | Raise _ st' => silently st st'
    end.

(** Every registered forecast stays registered. *)
Definition counter_grows (st st' : RunState) : Prop :=
  forall key n, counter_used_FC st !! key = Some n -> counter_used_FC st' !! key = Some n.

End CaseSpec.

(** * Concrete configurations *)

Module Examples.

Import Processor.
Local Open Scope Z_scope.

Definition computation (name kind : string) (codes : list string) (post : bool)
  : Computation :=
  {| shortname := name; fullname := name; field := kind; inputs := codes;
     isPostProcessed := post; addScale := 0; mulScale := 1 |}.

(** Rainfall over [acc] hours with the predictors tp, cape and sr. *)
Definition rainfall (acc : Z) (minimum : Q) (cs : list Computation) : Config :=
  {| date_start := 100; date_end := 130;
     predictand_code := "tp"; accumulation := acc; is_accumulated := true;
     min_value := minimum; error := "FER";
     predictors_path := "/fc"; predictors_codes := ["tp"; "cape"; "sr"];
     sampling_interval := 3;
     observations_path := "/obs";
     computations := cs |}.

Definition tp_acc : Computation := computation "tp_acc" "ACCUMULATED_FIELD" ["tp"] true.
Definition cape_wa : Computation :=
  computation "cape_wa" "WEIGHTED_AVERAGE_FIELD" ["cape"] true.
Definition cape_max : Computation := computation "cape_max" "MAXIMUM_FIELD" ["cape"] false.
Definition sr24 : Computation := computation "sr24" "24H_SOLAR_RADIATION" ["sr"] true.
Definition ratio : Computation :=
  computation "ratio" "RATIO_FIELD" ["cape_wa"; "tp_acc"] true.
Definition lst : Computation := computation "lst" "LOCAL_SOLAR_TIME" [] true.

Definition rainfall_config (acc : Z) (cs : list Computation) : Config :=
  rainfall acc 1 cs.

Definition all_computations : list Computation :=
  [tp_acc; cape_wa; ratio; cape_max; lst; sr24].

(** A world with three observations, in which every forecast file
    reads as a field whose value at a point is the latitude of the
    point. *)
Definition three_observations : Geopoints :=
  [ {| lat := 0; lon := 0; val := 5 |};
    {| lat := 1; lon := 30; val := 7 |};
    {| lat := 2; lon := -60; val := 9 |} ].

Definition run_operator (c : Computation) (args : list (value Q)) : option (value Q) :=
  match args with
  | [VArray a; VArray b] => Some (VArray (@Utils.compute_ratio_field _ Utils.array_arith a b))
  | [VArray a; VInt h] => Some (VArray (Utils.compute_local_solar_time a h))
  | VField f :: _ => Some (VField f)
  | _ => None
  end.

Definition latitude_world : World :=
  {| Fieldset := Q;
     strftime := fun _ date => pretty date;
     read_geopoints := fun _ => ROk three_observations;
     from_path := fun _ => ROk 0%Q;
     nearest_value := fun f lat _ => (f + lat)%Q;
     field_values := fun f => [f];
     computer_run := run_operator;
     np_around := fun q => q |}.

(** The same world without its observation files. *)
Definition no_observation_world : World :=
  {| Fieldset := Q;
     strftime := fun _ date => pretty date;
     read_geopoints := fun _ => RIOError;
     from_path := fun _ => ROk 0%Q;
     nearest_value := fun f lat _ => (f + lat)%Q;
     field_values := fun f => [f];
     computer_run := run_operator;
     np_around := fun q => q |}.

(** The same world without its forecast files. *)
Definition no_forecast_world : World :=
  {| Fieldset := Q;
     strftime := fun _ date => pretty date;
     read_geopoints := fun _ => ROk three_observations;
     from_path := fun _ => RIOError;
     nearest_value := fun f lat _ => (f + lat)%Q;
     field_values := fun f => [f];
     computer_run := run_operator;
     np_around := fun q => q |}.

Definition cfg6 : Config := rainfall_config 6 all_computations.

(** The same configuration with a minimum no forecast reaches. *)
Definition cfg6_dry : Config := rainfall 6 1000 all_computations.

Definition case1 : Case := {| curr_date := 110; curr_time := 0; step_s := 12; case_no := 1 |}.
Definition case2 : Case := {| curr_date := 110; curr_time := 0; step_s := 12; case_no := 2 |}.
Definition late_case : Case :=
  {| curr_date := 140; curr_time := 0; step_s := 12; case_no := 3 |}.

(** The state after the first case. *)
Definition first_state : RunState :=
  flow_state (run_case (W := latitude_world) cfg6 1 case1 initial_state).

End Examples.

(** * core/loaders/ascii.py: the encoder of the point data table *)

Module AsciiLoader.

Import Processor.

Definition newline : string := String (Ascii.ascii_of_nat 10) EmptyString.

(** [OrderedDict(pairs)]: a key that comes again keeps its place and
    takes the new value; a new key goes to the end. *)
Fixpoint od_set {V} (k : string) (v : V) (d : list (string * V)) : list (string * V) :=
  match d with
  | [] => [(k, v)]
  | (k', v') :: d' =>
      if decide (k = k') then (k, v) :: d' else (k', v') :: od_set k v d'
  end.

Definition OrderedDict {V} (pairs : list (string * V)) : list (string * V) :=
  List.fold_left (fun d kv => od_set (fst kv) (snd kv) d) pairs [].


(** pandas, as the encoder uses it. *)
Class Pandas := {
  DataFrame : Type;
  (* pandas.DataFrame.from_dict(ordered_dict) *)
  from_dict : list (string * list cell) -> DataFrame;
  (* df.to_string(index=False, header=..., col_space=10) *)
  to_string : DataFrame -> bool -> string;
}.

(** The files, by path; a file that does not exist has no entry. *)
Definition open_w (path : string) (fs : gmap string string) : gmap string string :=
  <[path := ""]> fs.

Definition write_a (path text : string) (fs : gmap string string) : gmap string string :=
  <[path := default "" (fs !! path) +:+ text]> fs.

Record ASCIIEncoder := {
  path : string;
  first_chunk_address_added : bool;
}.

Section Encoder.

Context `{P : Pandas}.

Definition add_header (self : ASCIIEncoder) (header : string) (fs : gmap string string)
  : gmap string string :=
  write_a (path self) (newline +:+ newline)
          (write_a (path self) header (open_w (path self) fs)).

Definition add_footer (self : ASCIIEncoder) (footer : string) (fs : gmap string string)
  : gmap string string :=
  write_a (path self) footer fs.

Definition add_columns_chunk (self : ASCIIEncoder) (columns : Columns)
    (fs : gmap string string) : ASCIIEncoder * gmap string string :=
  let df := from_dict (OrderedDict columns) in
  if negb (first_chunk_address_added self) then
    ({| path := path self; first_chunk_address_added := true |},
     write_a (path self) newline (write_a (path self) (to_string df true) fs))
  else
    (self, write_a (path self) newline (write_a (path self) (to_string df false) fs)).

(** The chunks of a run, one call each. *)
Definition add_chunks (self : ASCIIEncoder) (chunks : list Columns)
    (fs : gmap string string) : ASCIIEncoder * gmap string string :=
  List.fold_left (fun s columns => add_columns_chunk (fst s) columns (snd s))
                 chunks (self, fs).

(** The text of a table: the first chunk with the column names, the
    others without, a line break after each. *)
Definition table_text (with_names : bool) (chunks : list Columns) : string :=
  match chunks with
  | [] => ""
  | first :: others =>
      to_string (from_dict (OrderedDict first)) with_names +:+ newline
      +:+ List.fold_right
            (fun columns text =>
               to_string (from_dict (OrderedDict columns)) false +:+ newline +:+ text)
            "" others
  end.

End Encoder.

End AsciiLoader.

(** * Kinds of computations *)

(** The kinds whose lead times step through the accumulation period. *)
Definition stepping_kinds : list string :=
  ["WEIGHTED_AVERAGE_FIELD"; "AVERAGE_FIELD"; "MAXIMUM_FIELD"; "MINIMUM_FIELD"].

(** * Bookkeeping of a case *)

Module Accounting.

Import Processor CaseSpec.

(** The state after steps that leave both totals alone. *)
Definition untouched (st st' : RunState) : Prop :=
  obsTOT st' = obsTOT st /\ obsUSED st' = obsUSED st.

(** An action that adds at most [n] to the retained total and nothing
    to the total seen. *)
Definition retains_at_most {A} (n : Z) (m : M A) : Prop :=
  forall st,
    obsTOT (flow_state (m st)) = obsTOT st
    /\ (obsUSED st <= obsUSED (flow_state (m st)) <= obsUSED st + n)%Z.

Definition same_mask (st st' : RunState) : Prop := mask st' = mask st.

(** The chunks a trace sent to the serializer. *)
Definition chunks_of (evs : list event) : list Columns :=
  List.flat_map (fun e => match e with AddColumnsChunk columns => [columns] | _ => [] end)
                evs.

(** The state a run ends in, whether it ran through or raised. *)
Definition final_state (r : RunState + exception * RunState) : RunState :=
  match r with
  | inl st => st
  | inr (_, st) => st
  end.

(** A computation that sets the reference values at its turn. *)
Definition sets_reference (config : Config) (b : Computation) : bool :=
  is_reference config b && isPostProcessed b.

(** The rows of a chunk: the cells of its first column. *)
Definition rows (columns : Columns) : nat :=
  match columns with
  | [] => 0%nat
  | (_, cells) :: _ => length cells
  end.

Definition total_rows (chunks : list Columns) : Z :=
  List.fold_right (fun columns total => Z.of_nat (rows columns) + total)%Z 0%Z chunks.

(** The columns of the case, the place and the observation: the first
    eight of a chunk. *)
Definition observation_columns (columns : Columns) : Columns := List.firstn 8 columns.

Definition rectangular (columns : Columns) : Prop :=
  length (observation_columns columns) = 8%nat
  /\ Forall (fun col => length (snd col) = rows columns) (observation_columns columns).

(** The state after a case that sent its rows: some events that are
    no chunk, then one chunk, whose rows are what the retained total
    grew by. *)
Definition one_chunk (st st' : RunState) : Prop :=
  exists evs columns,
    trace st' = trace st ++ evs ++ [AddColumnsChunk columns]
    /\ Forall (fun e => is_chunk e = false) evs
    /\ obsUSED st' = (obsUSED st + Z.of_nat (rows columns))%Z
    /\ rectangular columns.

(** What an action leaves, by the way it ends: [N] when it runs to its
    end, [C] when it leaves by [continue], [E] when it raises. *)
Definition outcome {A} (N C E : RunState -> RunState -> Prop) (m : M A) : Prop :=
  forall st,
    match m st with
    | Normal _ st' => N st st'
    | Continue st' => C st st'
    | Raise _ st' => E st st'
    end.

Definition anyhow (st st' : RunState) : Prop := True.

(** What an action returns when it runs to its end. *)
Definition yields {A} (m : M A) (Q : A -> Prop) : Prop :=
  forall st a st', m st = Normal a st' -> Q a.

(** Neither total decreases, and the retained total grows by no more
    than the total seen. *)
Definition within (st st' : RunState) : Prop :=
  (obsTOT st <= obsTOT st'
   /\ obsUSED st <= obsUSED st'
   /\ obsUSED st' - obsUSED st <= obsTOT st' - obsTOT st)%Z.

(** The retained total grew by [n], the total seen by nothing. *)
Definition retained_more (n : Z) (st st' : RunState) : Prop :=
  obsTOT st' = obsTOT st /\ obsUSED st' = (obsUSED st + n)%Z.

(** As long as no reference values are bound, none get bound and no
    chunk is sent. *)
Definition dry (st st' : RunState) : Prop :=
  ref_geopoints st = None -> ref_geopoints st' = None /\ silently st st'.

Section Files.

Context `{W : World}.






(** The observations in the observation files a trace read, a file as
    often as it was read. *)
Definition observations_counted (evs : list event) : Z :=
  List.fold_right
    (fun e total =>
       match e with
       | ReadObservationFile path =>
           match read_geopoints path with
           | ROk obs => (Z.of_nat (length obs) + total)%Z
           | _ => total
           end
       | _ => total
       end)
    0%Z evs.

Definition tallied (st st' : RunState) : Prop :=
  exists evs,
    trace st' = trace st ++ evs
    /\ obsTOT st' = (obsTOT st + observations_counted evs)%Z.

End Files.

End Accounting.

(** * More configurations *)

Module Examples2.

Import Processor Examples.
Local Open Scope Z_scope.

(** Temperature at an instant: the predictand is not accumulated. *)
Definition t2m : Computation := computation "t2m" "INSTANTANEOUS_FIELD" ["2t"] true.
Definition wind : Computation := computation "wind" "INSTANTANEOUS_FIELD" ["10u"] true.

Definition temperature (cs : list Computation) : Config :=
  {| date_start := 100; date_end := 130;
     predictand_code := "2t"; accumulation := 0; is_accumulated := false;
     min_value := 0; error := "FE";
     predictors_path := "/fc"; predictors_codes := ["2t"; "10u"];
     sampling_interval := 3;
     observations_path := "/obs";
     computations := cs |}.

Definition temperature_config : Config := temperature [t2m; wind].

(** The rainfall configuration whose reference is kept out of the table. *)
Definition tp_hidden : Computation := computation "tp_acc" "ACCUMULATED_FIELD" ["tp"] false.
Definition hidden_reference_config : Config := rainfall_config 6 [tp_hidden; cape_wa].

(** A ratio whose dividend is not among the computations. *)
Definition dangling_config : Config := rainfall_config 6 [tp_acc; ratio].

(** A world without observations in its files. *)
Definition empty_observation_world : World :=
  {| Fieldset := Q;
     strftime := fun _ date => pretty date;
     read_geopoints := fun _ => ROk [];
     from_path := fun _ => ROk 0%Q;
     nearest_value := fun f lat _ => (f + lat)%Q;
     field_values := fun f => [f];
     computer_run := run_operator;
     np_around := fun q => q |}.

End Examples2.

(** * Properties of the operator library *)

Section UtilsFacts.

Import Utils.
Local Open Scope Q_scope.

(** The array code treats every entry alone. *)
Lemma local_solar_time_pointwise (longitudes : list Q) (hour : Z) :
  compute_local_solar_time longitudes hour = List.map (lst_point hour) longitudes.
Proof.
  unfold compute_local_solar_time, times_test.
  induction longitudes as [|x longitudes IH]; [reflexivity|].
  cbn [List.map map2]. rewrite IH. reflexivity.
Qed.

Ltac no_test t :=
  lazymatch t with
  | context [Qlt_le_dec _ _] => fail
  | context [Qeq_dec _ _] => fail
  | _ => idtac
  end.

(** Case analysis on the comparisons, innermost first; the cases the
    hypotheses exclude are closed at once. *)
Ltac q15 := unfold Qdiv in *; change (/ 15) with (1 # 15) in *.

Ltac cmp :=
  unfold q_ge, q_gt, q_lt, q_ne, b2q in *; q15;
  repeat match goal with
    | |- context [Qlt_le_dec ?a ?b] =>
        no_test a; no_test b; destruct (Qlt_le_dec a b); cbv beta iota;
        try (exfalso; lra)
    | |- context [Qeq_dec ?a ?b] =>
        no_test a; no_test b; destruct (Qeq_dec a b); cbv beta iota;
        try (exfalso; lra)
    end;
  try lra.

Lemma lst_pos_spec (lon h : Q) :
  lst_pos lon h ==
  if Qlt_le_dec 0 lon
  then (if Qlt_le_dec (h + lon / 15) 24 then h + lon / 15 else h + lon / 15 - 24)
  else 0.
Proof.
  unfold lst_pos. cbv zeta.
  destruct (Qlt_le_dec 0 lon) as [Hpos|Hneg];
    destruct (Qlt_le_dec (h + lon / 15) 24) as [Hlt|Hge]; cmp.
Qed.

Lemma lst_neg_spec (lon h : Q) :
  lst_neg lon h ==
  if Qlt_le_dec lon 0
  then (if Qlt_le_dec (h - Qabs lon / 15) 0
        then h - Qabs lon / 15 + 24 else h - Qabs lon / 15)
  else 0.
Proof.
  unfold lst_neg. cbv zeta. q15.
  destruct (Qlt_le_dec lon 0) as [Hneg|Hpos].
  - assert (HA : Qabs lon == - lon) by (apply Qabs_neg; lra).
    assert (HB : Qabs (lon * b2q (q_lt lon 0) * (1 # 15)) == - lon * (1 # 15)).
    { unfold q_lt, b2q. destruct (Qlt_le_dec lon 0); [|lra].
      rewrite Qabs_neg; lra. }
    revert HA HB.
    generalize (Qabs lon) (Qabs (lon * b2q (q_lt lon 0) * (1 # 15))).
    intros A B HA HB.
    destruct (Qlt_le_dec (h - A * (1 # 15)) 0); cmp.
  - assert (HB : Qabs (lon * b2q (q_lt lon 0) * (1 # 15)) == 0).
    { unfold q_lt, b2q. destruct (Qlt_le_dec lon 0); [lra|].
      rewrite Qabs_pos; lra. }
    revert HB. generalize (Qabs (lon * b2q (q_lt lon 0) * (1 # 15))). intros B HB.
    cmp.
Qed.

Lemma lst_point_spec (hour : Z) (lon : Q) :
  lst_point hour lon == Spec.local_solar_time hour lon.
Proof.
  unfold lst_point, Spec.local_solar_time. cbv zeta.
  rewrite lst_pos_spec, lst_neg_spec.
  assert (HA : lon <= 0 -> Qabs lon == - lon) by apply Qabs_neg.
  revert HA. generalize (Qabs lon). intros A HA.
  destruct (Qeq_dec lon 0); cmp.
Qed.

(** *** Weighted average *)

Lemma last_item_snoc {V} (l : list V) (x : V) : last_item (l ++ [x]) = Some x.
Proof. unfold last_item. rewrite List.rev_app_distr. reflexivity. Qed.

Lemma slice_interior {V} (first last : V) (interior : list V) :
  slice 1 (length (first :: interior ++ [last]) - 1) (first :: interior ++ [last])
  = interior.
Proof.
  unfold slice. cbn [List.skipn length].
  rewrite List.length_app. cbn [length].
  replace (S (length interior + 1) - 1 - 1)%nat with (length interior + 0)%nat by lia.
  change (List.skipn 0 (interior ++ [last])) with (interior ++ [last]).
  rewrite List.firstn_app_2. cbn. apply List.app_nil_r.
Qed.

(** The two branches of the operator on a list with both endpoints. *)
Lemma weighted_average_unfold {V} `{Arith V} (first last : V) (interior : list V) :
  compute_weighted_average_field (first :: interior ++ [last])
  = Some (match interior with
          | [] => vadd (vmulq first 0.5) (vmulq last 0.5)
          | _ :: _ =>
              vdivq (reduce_add interior (vadd (vmulq first 0.5) (vmulq last 0.5)))
                    (inject_Z (Z.of_nat (length interior)) * 1 + 2 * 0.5)
          end).
Proof.
  unfold compute_weighted_average_field.
  change (first :: interior ++ [last]) with ((first :: interior) ++ [last]) at 2.
  rewrite last_item_snoc. cbn [first_item List.hd_error]. cbv zeta.
  rewrite slice_interior. destruct interior; reflexivity.
Qed.

Lemma fold_left_Qplus (l : list Q) (a : Q) :
  List.fold_left Qplus l a == a + Spec.Qsum l.
Proof.
  revert a. induction l as [|x l IH]; intros a; cbn [List.fold_left Spec.Qsum List.fold_right].
  - lra.
  - rewrite IH. unfold Spec.Qsum. lra.
Qed.

Lemma weighted_average_scalar (first last : Q) (interior : list Q) :
  exists r, compute_weighted_average_field (first :: interior ++ [last]) = Some r
            /\ r == Spec.weighted_average first interior last.
Proof.
  eexists. split; [apply weighted_average_unfold|].
  unfold Spec.weighted_average.
  destruct interior as [|x interior].
  - cbn [vadd vmulq scalar_arith length Spec.Qsum List.fold_right].
    change (inject_Z (Z.of_nat 0)) with 0. field.
  - set (l := x :: interior).
    cbn [vadd vmulq vdivq scalar_arith reduce_add].
    unfold reduce_add. cbn [vadd scalar_arith].
    rewrite fold_left_Qplus.
    assert (Hn : 0 <= inject_Z (Z.of_nat (length l))).
    { change 0 with (inject_Z 0). rewrite <- Zle_Qle. lia. }
    field. lra.
Qed.

Lemma length_map2 {A B C} (f : A -> B -> C) (a : list A) (b : list B) (n : nat) :
  length a = n -> length b = n -> length (map2 f a b) = n.
Proof.
  revert b n. induction a as [|x a IH]; intros [|y b] [|n]; cbn; try congruence.
  intros [= Ha] [= Hb]. f_equal. now apply IH.
Qed.

Lemma nth_map2 (f : Q -> Q -> Q) (a b : list Q) (k : nat) :
  (k < length a)%nat -> (k < length b)%nat ->
  List.nth k (map2 f a b) 0 = f (List.nth k a 0) (List.nth k b 0).
Proof.
  revert b k. induction a as [|x a IH]; intros [|y b] [|k]; cbn; try lia; try reflexivity.
  intros Ha Hb. apply IH; lia.
Qed.

Lemma nth_map_Q (f : Q -> Q) (a : list Q) (k : nat) :
  (k < length a)%nat -> List.nth k (List.map f a) 0 = f (List.nth k a 0).
Proof.
  revert k. induction a as [|x a IH]; intros [|k]; cbn; try lia; try reflexivity.
  intros Ha. apply IH; lia.
Qed.

(** Adding same-shaped arrays keeps the shape and adds entry by entry. *)
Lemma reduce_add_arrays (items : list (list Q)) (init : list Q) (n : nat) :
  Forall (fun a => length a = n) items -> length init = n ->
  length (reduce_add items init) = n
  /\ forall k, (k < n)%nat ->
       List.nth k (reduce_add items init) 0
       = reduce_add (Spec.entries k items) (List.nth k init 0).
Proof.
  unfold reduce_add. intros Hitems. revert init.
  induction Hitems as [|a items Ha Hitems IH]; intros init Hinit.
  - split; [exact Hinit | reflexivity].
  - cbn [List.fold_left Spec.entries List.map].
    destruct (IH (vadd init a)) as [Hlen Hnth].
    { now apply length_map2. }
    split; [exact Hlen|]. intros k Hk. rewrite Hnth by exact Hk.
    f_equal. cbn [vadd array_arith scalar_arith]. apply nth_map2; lia.
Qed.

Lemma entries_length (k : nat) (arrays : list (list Q)) :
  length (Spec.entries k arrays) = length arrays.
Proof. unfold Spec.entries. apply List.length_map. Qed.

Lemma vdivq_array (a : list Q) (q : Q) :
  vdivq a q = List.map (fun x => x / q) a.
Proof. reflexivity. Qed.

(** On same-shaped arrays the operator works entry by entry: the entry
    at [k] of the result is the operator applied to the entries at [k]. *)
Lemma weighted_average_entrywise (first last : list Q) (interior : list (list Q)) (n : nat) :
  Forall (fun a => length a = n) (first :: interior ++ [last]) ->
  exists r, compute_weighted_average_field (first :: interior ++ [last]) = Some r
    /\ length r = n
    /\ forall k, (k < n)%nat ->
         compute_weighted_average_field
           (List.nth k first 0 :: Spec.entries k interior ++ [List.nth k last 0])
         = Some (List.nth k r 0).
Proof.
  intros Hshape.
  apply List.Forall_cons_iff in Hshape as [Hfirst Hrest].
  apply List.Forall_app in Hrest as [Hinterior Hlast].
  apply List.Forall_cons_iff in Hlast as [Hlast _].
  set (ws := vadd (vmulq first 0.5) (vmulq last 0.5)).
  assert (Hws : length ws = n).
  { subst ws. cbn [vadd vmulq array_arith].
    apply length_map2; now rewrite List.length_map. }
  assert (Hwsk : forall k, (k < n)%nat ->
            List.nth k ws 0 = vadd (vmulq (List.nth k first 0) 0.5)
                                   (vmulq (List.nth k last 0) 0.5)).
  { intros k Hk. subst ws. cbn [vadd vmulq array_arith scalar_arith].
    rewrite nth_map2 by (rewrite List.length_map; lia).
    now rewrite !nth_map_Q by lia. }
  eexists. split; [apply weighted_average_unfold|].
  destruct (reduce_add_arrays interior ws n Hinterior Hws) as [Hlen Hnth].
  destruct interior as [|x interior].
  - split; [exact Hws|]. intros k Hk.
    rewrite weighted_average_unfold. cbn [Spec.entries List.map].
    now rewrite Hwsk.
  - split.
    + rewrite vdivq_array. now rewrite List.length_map.
    + intros k Hk. rewrite weighted_average_unfold.
      f_equal. rewrite vdivq_array. fold ws.
      rewrite nth_map_Q by lia.
      rewrite Hnth, Hwsk by exact Hk.
      change (Spec.entries k (x :: interior))
        with (List.nth k x 0 :: Spec.entries k interior).
      cbn [length]. rewrite entries_length. reflexivity.
Qed.

(** C4. For two or more same-shaped inputs the weighted-average operator
    returns, at every entry, (0.5*first + sum of the interior inputs +
    0.5*last) divided by (number of interior inputs + 1). *)
Theorem weighted_average_correct
    (first last : list Q) (interior : list (list Q)) (n : nat) :
  Forall (fun a => length a = n) (first :: interior ++ [last]) ->
  exists r, compute_weighted_average_field (first :: interior ++ [last]) = Some r
    /\ length r = n
    /\ forall k, (k < n)%nat ->
         List.nth k r 0
         == Spec.weighted_average (List.nth k first 0) (Spec.entries k interior)
                                  (List.nth k last 0).
Proof.
  intros Hshape.
  destruct (weighted_average_entrywise first last interior n Hshape)
    as (r & Hr & Hlen & Hentry).
  exists r. split; [exact Hr|]. split; [exact Hlen|].
  intros k Hk.
  destruct (weighted_average_scalar (List.nth k first 0) (List.nth k last 0)
              (Spec.entries k interior)) as (q & Hq & Heq).
  rewrite (Hentry k Hk) in Hq. injection Hq as ->. exact Heq.
Qed.

(** The inputs [10, 20, 30] and [10, 30] both average to 20. *)
Lemma weighted_average_correct_witness :
  (exists r, compute_weighted_average_field [[10]; [20]; [30]] = Some r
     /\ length r = 1%nat
     /\ forall k, (k < 1)%nat ->
          List.nth k r 0
          == Spec.weighted_average (List.nth k [10] 0) (Spec.entries k [[20]])
                                   (List.nth k [30] 0))
  /\ Spec.weighted_average 10 [20] 30 == 20
  /\ Spec.weighted_average 10 [] 30 == 20.
Proof.
  split; [|split; reflexivity].
  apply (weighted_average_correct [10] [30] [[20]] 1).
  repeat constructor.
Defined.

Example weighted_average_10_20_30 :
  exists r, compute_weighted_average_field [10; 20; 30] = Some r /\ r == 20.
Proof. eexists. split; reflexivity. Qed.

Example weighted_average_10_30 :
  exists r, compute_weighted_average_field [10; 30] = Some r /\ r == 20.
Proof. eexists. split; reflexivity. Qed.



End UtilsFacts.

(** * Properties of the lead-time resolver and of the partitioner *)

Section ResolverFacts.

Import Processor.
Local Open Scope Z_scope.

Lemma range_count (start stop step i : Z) :
  0 < step -> 0 <= i ->
  (i < (stop - start + step - 1) `div` step <-> start + i * step < stop).
Proof.
  intros Hstep Hi. split; intros H.
  - assert (i + 1 <= (stop - start + step - 1) `div` step) as H1 by lia.
    pose proof (Z.mul_div_le (stop - start + step - 1) step Hstep). nia.
  - enough (i + 1 <= (stop - start + step - 1) `div` step) by lia.
    apply Z.div_le_lower_bound; [exact Hstep | nia].
Qed.

Lemma StronglySorted_map_seq (f : nat -> Z) (s n : nat) :
  (forall i j : nat, (i < j)%nat -> f i < f j) ->
  StronglySorted Z.lt (List.map f (seq s n)).
Proof.
  intros Hf. revert s. induction n as [|n IH]; intros s; cbn [seq List.map].
  - constructor.
  - constructor; [apply IH|].
    apply List.Forall_forall. intros x Hx.
    apply List.in_map_iff in Hx as (j & <- & Hj).
    apply List.in_seq in Hj. apply Hf. lia.
Qed.

(** [range(start, stop, step)] with a positive step: the values
    [start + k * step] below [stop], in increasing order. *)
Lemma py_range_positive (start stop step : Z) :
  0 < step ->
  exists l, py_range start stop step = Some l
    /\ StronglySorted Z.lt l
    /\ forall x, x ∈ l <-> exists k, 0 <= k /\ x = start + k * step /\ x < stop.
Proof.
  intros Hstep. unfold py_range.
  rewrite bool_decide_eq_false_2 by lia.
  rewrite bool_decide_eq_true_2 by lia.
  eexists. split; [reflexivity|]. split.
  - apply StronglySorted_map_seq. intros i j Hij. nia.
  - intros x. rewrite list_elem_of_In, List.in_map_iff. split.
    + intros (i & <- & Hi). apply List.in_seq in Hi.
      exists (Z.of_nat i). split; [lia|]. split; [reflexivity|].
      apply range_count; [lia..|].
      destruct (Z_lt_le_dec 0 ((stop - start + step - 1) `div` step)); lia.
    + intros (k & Hk & -> & Hlt).
      exists (Z.to_nat k). rewrite Z2Nat.id by lia. split; [reflexivity|].
      apply List.in_seq. apply range_count in Hlt; lia.
Qed.

(** C3. For an accumulated predictand the resolver gives the
    scaled-24h-accumulation kind [s, s+acc] when acc = 24, else [0, 24]
    when s+acc <= 24, else [s+acc-24, s+acc]. *)
Theorem lead_times_solar_radiation (config : Config) (computation : Computation) (s : Z) :
  is_accumulated config = true ->
  field computation = "24H_SOLAR_RADIATION" ->
  lead_times config computation s
  = Some (if bool_decide (accumulation config = 24) then [s; s + accumulation config]
          else if bool_decide (s + accumulation config <= 24) then [0; 24]
          else [s + accumulation config - 24; s + accumulation config]).
Proof.
  intros Hacc Hkind. unfold lead_times. rewrite Hacc, Hkind. cbn [negb].
  rewrite bool_decide_eq_true_2 by reflexivity.
  repeat case_bool_decide; reflexivity.
Qed.

(** acc=24, s=6 gives [6, 30]; acc=6, s=20 gives [2, 26]; acc=6, s=10
    gives [0, 24]. *)
Lemma lead_times_solar_radiation_witness :
  lead_times (Examples.rainfall_config 24 [Examples.sr24]) Examples.sr24 6 = Some [6; 30]
  /\ lead_times (Examples.rainfall_config 6 [Examples.sr24]) Examples.sr24 20 = Some [2; 26]
  /\ lead_times (Examples.rainfall_config 6 [Examples.sr24]) Examples.sr24 10 = Some [0; 24].
Proof.
  split; [|split].
  - apply (lead_times_solar_radiation
             (Examples.rainfall_config 24 [Examples.sr24]) Examples.sr24 6);
      reflexivity.
  - apply (lead_times_solar_radiation
             (Examples.rainfall_config 6 [Examples.sr24]) Examples.sr24 20);
      reflexivity.
  - apply (lead_times_solar_radiation
             (Examples.rainfall_config 6 [Examples.sr24]) Examples.sr24 10);
      reflexivity.
Defined.





Example lead_times_weighted_average :
  lead_times (Examples.rainfall_config 6 [Examples.cape_wa]) Examples.cape_wa 12
  = Some [12; 15; 18].
Proof. reflexivity. Qed.

Example lead_times_maximum :
  lead_times (Examples.rainfall_config 6 [Examples.cape_max]) Examples.cape_max 12
  = Some [15; 18].
Proof. reflexivity. Qed.


End ResolverFacts.

Section PartitionFacts.

Import Processor.

(** Inserting into a list whose [true] keys all come first. *)
Lemma insert_desc_split {A} (key : A -> bool) (x : A) (T F : list A) :
  Forall (fun y => key y = true) T ->
  Forall (fun y => key y = false) F ->
  insert_desc key x (T ++ F)
  = if key x then T ++ [x] ++ F else T ++ F ++ [x].
Proof.
  intros HT HF. destruct (key x) eqn:Hx.
  - induction HT as [|y T Hy HT IH]; cbn [app insert_desc].
    + destruct HF as [|y F Hy HF]; cbn [app insert_desc]; [reflexivity|].
      now rewrite Hy, Hx.
    + rewrite Hy. cbn [negb andb]. now rewrite IH.
  - induction HT as [|y T Hy HT IH]; cbn [app insert_desc].
    + induction HF as [|y F Hy HF IH]; cbn [app insert_desc]; [reflexivity|].
      rewrite Hy, Hx. cbn [negb andb]. now rewrite IH.
    + rewrite Hy. cbn [negb andb]. now rewrite IH.
Qed.

Lemma sorted_reverse_from {A} (key : A -> bool) (l done : list A) :
  List.fold_left (fun sorted x => insert_desc key x sorted) l
    (List.filter key done ++ List.filter (fun y => negb (key y)) done)
  = List.filter key (done ++ l) ++ List.filter (fun y => negb (key y)) (done ++ l).
Proof.
  revert done. induction l as [|x l IH]; intros done; cbn [List.fold_left].
  - now rewrite List.app_nil_r.
  - rewrite insert_desc_split.
    + replace (done ++ x :: l) with ((done ++ [x]) ++ l)
        by now rewrite <- List.app_assoc.
      rewrite <- IH. f_equal. rewrite !List.filter_app. cbn [List.filter].
      destruct (key x); cbn [negb app];
        now rewrite ?List.app_nil_r, <- ?List.app_assoc.
    + apply List.Forall_forall. intros y Hy. now apply List.filter_In in Hy.
    + apply List.Forall_forall. intros y Hy. apply List.filter_In in Hy as [_ Hy].
      now destruct (key y).
Qed.

(** A stable sort on a boolean key, largest first: the items with the
    key, in their order, then the items without it, in their order. *)
Lemma sorted_reverse_stable {A} (key : A -> bool) (l : list A) :
  sorted_reverse key l
  = List.filter key l ++ List.filter (fun y => negb (key y)) l.
Proof. apply (sorted_reverse_from key l []). Qed.

Lemma is_derived_iff (config : Config) (c : Computation) :
  is_derived config c = true <->
  (exists code, code ∈ inputs c /\ code ∉ predictors_codes config)
  /\ isPostProcessed c = true
  /\ field c <> "LOCAL_SOLAR_TIME".
Proof.
  unfold is_derived, base_fields.
  rewrite !andb_true_iff, !bool_decide_eq_true.
  assert ((list_to_set (inputs c) : gset string) ∖ list_to_set (predictors_codes config) ≠ ∅
          <-> exists code, code ∈ inputs c /\ code ∉ predictors_codes config) as ->.
  { split.
    - intros Hne. apply set_choose_L in Hne as [code Hcode].
      exists code. set_solver.
    - intros (code & Hin & Hout) Hempty.
      assert (code ∈ (list_to_set (inputs c) : gset string)
                       ∖ list_to_set (predictors_codes config)) as Hcode by set_solver.
      rewrite Hempty in Hcode. set_solver. }
  tauto.
Qed.

Lemma derived_computations_iff (config : Config) (c : Computation) :
  c ∈ derived_computations config
  <-> c ∈ computations config /\ is_derived config c = true.
Proof.
  unfold derived_computations. rewrite !list_elem_of_In. apply List.filter_In.
Qed.

(** The list the base computations are sorted from. *)
Lemma base_candidates (config : Config) :
  List.filter
    (fun computation =>
       bool_decide (computation ∉ derived_computations config)
       && bool_decide (field computation ≠ "LOCAL_SOLAR_TIME"))
    (computations config)
  = List.filter
      (fun computation =>
         negb (is_derived config computation)
         && bool_decide (field computation ≠ "LOCAL_SOLAR_TIME"))
      (computations config).
Proof.
  apply List.filter_ext_in. intros c Hc. f_equal.
  apply list_elem_of_In in Hc.
  destruct (is_derived config c) eqn:Hd; cbn [negb].
  - apply bool_decide_eq_false_2. intros Hn. apply Hn.
    now apply derived_computations_iff.
  - apply bool_decide_eq_true_2. intros Hn.
    apply derived_computations_iff in Hn as [_ Hn]. congruence.
Qed.

(** C5. A computation is derived iff one of its input codes is outside
    the raw-predictor set, it is post-processed, and its kind is not
    local solar time.  Every other computation whose kind is not local
    solar time is base.  The base list is the configured order with the
    reference computations (one input, the predictand code) moved in
    front of the others, each group keeping its order. *)
Theorem partition_correct (config : Config) :
  let candidates :=
    List.filter
      (fun c => negb (is_derived config c)
                && bool_decide (field c ≠ "LOCAL_SOLAR_TIME"))
      (computations config) in
  (forall c, c ∈ derived_computations config <->
     c ∈ computations config
     /\ (exists code, code ∈ inputs c /\ code ∉ predictors_codes config)
     /\ isPostProcessed c = true
     /\ field c <> "LOCAL_SOLAR_TIME")
  /\ (forall c, c ∈ base_computations config <->
        c ∈ computations config
        /\ (c ∉ derived_computations config)
        /\ field c <> "LOCAL_SOLAR_TIME")
  /\ (forall c, is_reference config c = true <-> inputs c = [predictand_code config])
  /\ base_computations config
     = List.filter (is_reference config) candidates
       ++ List.filter (fun c => negb (is_reference config c)) candidates.
Proof.
  intros candidates.
  assert (Hbase : base_computations config
                  = List.filter (is_reference config) candidates
                    ++ List.filter (fun c => negb (is_reference config c)) candidates).
  { unfold base_computations. rewrite base_candidates. apply sorted_reverse_stable. }
  split; [|split; [|split; [|exact Hbase]]].
  - intros c. rewrite derived_computations_iff, is_derived_iff. tauto.
  - intros c. rewrite Hbase, elem_of_app, !list_elem_of_In.
    rewrite !List.filter_In. subst candidates. rewrite List.filter_In.
    rewrite andb_true_iff, negb_true_iff, bool_decide_eq_true.
    rewrite <- !list_elem_of_In, derived_computations_iff.
    destruct (is_reference config c), (is_derived config c); cbn [negb];
      intuition congruence.
  - intros c. unfold is_reference.
    rewrite andb_true_iff, !bool_decide_eq_true.
    destruct (inputs c) as [|code [|code' rest]]; cbn [length List.hd_error];
      split; [intros [? ?] | intros ? | intros [_ [= ->]] | intros [= ->]
              | intros [? ?] | intros ?]; try discriminate; auto.
Qed.

End PartitionFacts.

(** * Properties of the case runner *)

Section RunnerFacts.

Import Processor CaseSpec.
Local Open Scope Z_scope.

Context `{W : World}.
Variable config : Config.

(** ** The control-flow monad *)

Lemma bind_Normal_inv {A B} (m : M A) (k : A -> M B) st b st' :
  bind m k st = Normal b st' ->
  exists a st1, m st = Normal a st1 /\ k a st1 = Normal b st'.
Proof. unfold bind. destruct (m st); [eauto | discriminate..]. Qed.

Lemma bind_Normal {A B} (m : M A) (k : A -> M B) st a st1 :
  m st = Normal a st1 -> bind m k st = k a st1.
Proof. unfold bind. now intros ->. Qed.

Lemma bind_Continue {A B} (m : M A) (k : A -> M B) st st1 :
  m st = Continue st1 -> bind m k st = Continue st1.
Proof. unfold bind. now intros ->. Qed.

Lemma bind_Raise {A B} (m : M A) (k : A -> M B) st exn st1 :
  m st = Raise exn st1 -> bind m k st = Raise exn st1.
Proof. unfold bind. now intros ->. Qed.

Lemma from_option_Normal {A} exn (o : option A) st a st' :
  from_option exn o st = Normal a st' -> o = Some a /\ st' = st.
Proof. destruct o; cbn; [intros [= -> ->]; auto | discriminate]. Qed.

Lemma bound_Normal {A} (f : RunState -> option A) st a st' :
  bound f st = Normal a st' -> f st = Some a /\ st' = st.
Proof. unfold bound. destruct (f st); [intros [= -> ->]; auto | discriminate]. Qed.

(** ** Relations every step of an action keeps *)

Section Follows.

Variable R : RunState -> RunState -> Prop.
Hypothesis R_refl : forall st, R st st.
Hypothesis R_trans : forall st1 st2 st3, R st1 st2 -> R st2 st3 -> R st1 st3.

Lemma follows_ret {A} (a : A) : follows R (ret a).
Proof. intros st. apply R_refl. Qed.

Lemma follows_continue {A} : follows R (@continue A).
Proof. intros st. apply R_refl. Qed.

Lemma follows_raise {A} exn : follows R (@raise A exn).
Proof. intros st. apply R_refl. Qed.

Lemma follows_get {A} (f : RunState -> A) : follows R (get f).
Proof. intros st. apply R_refl. Qed.

Lemma follows_bound {A} (f : RunState -> option A) : follows R (bound f).
Proof. intros st. unfold bound. destruct (f st); apply R_refl. Qed.

Lemma follows_from_option {A} exn (o : option A) : follows R (from_option exn o).
Proof. destruct o; [apply follows_ret | apply follows_raise]. Qed.

Lemma follows_modify (f : RunState -> RunState) :
  (forall st, R st (f st)) -> follows R (modify f).
Proof. intros Hf st. apply Hf. Qed.

Lemma follows_bind {A B} (m : M A) (k : A -> M B) :
  follows R m -> (forall a, follows R (k a)) -> follows R (bind m k).
Proof.
  intros Hm Hk st. unfold bind. specialize (Hm st).
  destruct (m st) as [a st1|st1|exn st1]; cbn [flow_state] in *; [|exact Hm..].
  eapply R_trans; [exact Hm | apply Hk].
Qed.

End Follows.

Lemma keeps_counter_refl st : keeps_counter st st.
Proof. reflexivity. Qed.

Lemma keeps_counter_trans st1 st2 st3 :
  keeps_counter st1 st2 -> keeps_counter st2 st3 -> keeps_counter st1 st3.
Proof. unfold keeps_counter. congruence. Qed.

Lemma quietly_refl st : quietly st st.
Proof.
  split; [reflexivity|].
  exists []. split; [now rewrite List.app_nil_r | constructor].
Qed.

Lemma quietly_trans st1 st2 st3 : quietly st1 st2 -> quietly st2 st3 -> quietly st1 st3.
Proof.
  intros (Hu1 & evs1 & Ht1 & Hq1) (Hu2 & evs2 & Ht2 & Hq2).
  split; [congruence|].
  exists (evs1 ++ evs2). split.
  - now rewrite Ht2, Ht1, List.app_assoc.
  - now apply List.Forall_app.
Qed.

Lemma quietly_emit e st : is_chunk e = false -> quietly st (emit e st).
Proof.
  intros He. split; [reflexivity|].
  exists [e]. split; [reflexivity | now constructor].
Qed.

Lemma quietly_same_trace st st' :
  obsUSED st' = obsUSED st -> trace st' = trace st -> quietly st st'.
Proof.
  intros Hu Ht. split; [exact Hu|].
  exists []. split; [now rewrite List.app_nil_r | constructor].
Qed.

(** ** What the steps before the rows keep

    Reading, computing and pairing only log, read files, and set
    [obsTOT], [mask], [ref_geopoints] and [ref_code]. *)

Section Frames.

Variable R : RunState -> RunState -> Prop.
Hypothesis R_refl : forall st, R st st.
Hypothesis R_trans : forall st1 st2 st3, R st1 st2 -> R st2 st3 -> R st1 st3.
Hypothesis R_emit : forall e st, is_chunk e = false -> R st (emit e st).
Hypothesis R_same :
  forall st st',
    counter_used_FC st' = counter_used_FC st -> obsUSED st' = obsUSED st ->
    trace st' = trace st -> R st st'.

Ltac frame :=
  repeat first
    [ match goal with H : _ |- _ => solve [apply H] end
    | apply (follows_bind R R_trans); [|intros ?]
    | apply (follows_ret R R_refl)
    | apply (follows_continue R R_refl)
    | apply (follows_raise R R_refl)
    | apply (follows_get R R_refl)
    | apply (follows_bound R R_refl)
    | apply (follows_from_option R R_refl)
    | apply follows_modify; intros ?;
      first [ apply R_emit; reflexivity | apply R_same; reflexivity ]
    | match goal with
      | |- follows _ (logging _ _) => unfold logging
      | |- follows _ (if ?b then _ else _) => destruct b
      | |- follows _ (match ?x with _ => _ end) => destruct x
      end ].

Lemma read_observations_frame c : follows R (read_observations config c).
Proof. unfold read_observations. cbv zeta. frame. Qed.

Lemma read_forecasts_frame paths computation_steps :
  follows R (read_forecasts paths computation_steps).
Proof.
  revert computation_steps.
  induction paths as [|path paths IH]; intros computation_steps; cbn [read_forecasts].
  - frame.
  - frame.
Qed.

Lemma nearest_gridpoint_frame v obs : follows R (nearest_gridpoint v obs).
Proof. unfold nearest_gridpoint. frame. Qed.

Lemma base_step_frame pmin c obs computation l :
  follows R (base_step config pmin c obs computation l).
Proof.
  pose proof read_forecasts_frame. pose proof nearest_gridpoint_frame.
  unfold base_step, compute_base, pair_base. cbv zeta. frame.
Qed.

Lemma base_loop_frame pmin c obs todo l :
  follows R (base_loop config pmin c obs todo l).
Proof.
  revert l. induction todo as [|computation todo IH]; intros l; cbn [base_loop].
  - frame.
  - pose proof base_step_frame. frame.
Qed.

Lemma cache_lookup_frame cache codes : follows R (cache_lookup cache codes).
Proof.
  induction codes as [|code codes IH]; cbn [cache_lookup]; frame.
Qed.

Lemma project_frame v obs : follows R (project config v obs).
Proof. pose proof nearest_gridpoint_frame. unfold project. frame. Qed.

Lemma as_array_frame v : follows R (as_array v).
Proof. unfold as_array. frame. Qed.

Lemma values_of_frame v : follows R (values_of v).
Proof. unfold values_of. frame. Qed.

Lemma derived_step_frame obs computation l :
  follows R (derived_step config obs computation l).
Proof.
  pose proof cache_lookup_frame. pose proof project_frame.
  pose proof as_array_frame. pose proof values_of_frame.
  unfold derived_step. frame.
Qed.

Lemma derived_loop_frame obs todo l : follows R (derived_loop config obs todo l).
Proof.
  revert l. induction todo as [|computation todo IH]; intros l; cbn [derived_loop].
  - frame.
  - pose proof derived_step_frame. frame.
Qed.

Lemma vals_LST_frame c lonObs : follows R (vals_LST config c lonObs).
Proof. pose proof as_array_frame. unfold vals_LST. frame. Qed.

End Frames.

(** ** Running the first lines of the body *)

Lemma bind_logging {B} lv msg (k : unit -> M B) st :
  bind (logging lv msg) k st = k tt (emit (Log lv msg) st).
Proof. reflexivity. Qed.

Lemma bind_modify {B} f (k : unit -> M B) st : bind (modify f) k st = k tt (f st).
Proof. reflexivity. Qed.

Lemma bind_get {A B} (f : RunState -> A) (k : A -> M B) st :
  bind (get f) k st = k (f st) st.
Proof. reflexivity. Qed.

Lemma bind_ret {A B} (a : A) (k : A -> M B) st : bind (ret a) k st = k a st.
Proof. reflexivity. Qed.

Lemma bind_continue {A B} (k : A -> M B) st : bind continue k st = Continue st.
Proof. reflexivity. Qed.

Lemma bind_assoc {A B C} (m : M A) (k : A -> M B) (k' : B -> M C) st :
  bind (bind m k) k' st = bind m (fun a => bind (k a) k') st.
Proof. unfold bind. destruct (m st); reflexivity. Qed.

Ltac forward :=
  repeat first [ rewrite bind_assoc | rewrite bind_logging | rewrite bind_modify
               | rewrite bind_get | rewrite bind_ret | rewrite bind_continue ];
  cbv beta.

(** Lines 133-137. *)
Lemma run_case_registered pmin c st n :
  counter_used_FC st !! forecast_key config c = Some n ->
  run_case config pmin c st
  = Continue (emit (Log WARNING (MAlreadyConsidered n)) (announced config c st)).
Proof.
  intros Hn. unfold run_case. cbv zeta. forward.
  cbn [counter_used_FC emit]. rewrite Hn. forward. reflexivity.
Qed.

(** Lines 140-144. *)
Lemma run_case_out_of_period pmin c st :
  counter_used_FC st !! forecast_key config c = None ->
  curr_date c < date_start config \/ curr_date c > date_end config ->
  run_case config pmin c st = Continue (emit (Log WARNING MOutOfPeriod) (announced config c st)).
Proof.
  intros Hn Hout. unfold run_case. cbv zeta. forward.
  cbn [counter_used_FC emit]. rewrite Hn.
  rewrite bool_decide_eq_true_2 by exact Hout. forward. reflexivity.
Qed.

(** Lines 146-147. *)
Lemma run_case_fresh pmin c st :
  counter_used_FC st !! forecast_key config c = None ->
  date_start config <= curr_date c <= date_end config ->
  run_case config pmin c st
  = process_case config pmin c
      (set_counter (forecast_key config c) (case_no c) (announced config c st)).
Proof.
  intros Hn Hin. unfold run_case. cbv zeta. forward.
  cbn [counter_used_FC emit]. rewrite Hn.
  rewrite bool_decide_eq_false_2 by lia. forward. reflexivity.
Qed.

(** C6. When a case with the same forecast key has been registered,
    the case is skipped at once: the body leaves by [continue] after
    three log lines, the last one the warning that names the earlier
    case; no file is read, no rows are sent to the serializer, and the
    counter, both totals, the mask and the reference values are as
    they were. *)
Theorem duplicate_case_skipped (pmin : Q) (c1 c2 : Case) (st : RunState) :
  forecast_key config c2 = forecast_key config c1 ->
  counter_used_FC st !! forecast_key config c1 = Some (case_no c1) ->
  exists st',
    run_case config pmin c2 st = Continue st'
    /\ trace st'
       = trace st ++ [Log INFO (MCase (case_no c2));
                      Log INFO (MForecast (forecast_key config c2));
                      Log WARNING (MAlreadyConsidered (case_no c1))]
    /\ counter_used_FC st' = counter_used_FC st
    /\ obsTOT st' = obsTOT st
    /\ obsUSED st' = obsUSED st
    /\ mask st' = mask st
    /\ ref_geopoints st' = ref_geopoints st.
Proof.
  intros Hkey Hreg. rewrite <- Hkey in Hreg.
  eexists. split; [apply (run_case_registered pmin c2 st _ Hreg)|].
  cbn [trace emit announced counter_used_FC obsTOT obsUSED mask ref_geopoints].
  rewrite <- !List.app_assoc. repeat split; reflexivity.
Qed.

(** ** The forecast counter *)

Lemma keeps_counter_emit e st : keeps_counter st (emit e st).
Proof. reflexivity. Qed.

Ltac keeps :=
  solve [ exact keeps_counter_refl | exact keeps_counter_trans
        | intros; reflexivity | intros ? ? H ? ?; exact H ].

Lemma assemble_rows_keeps_counter c obs l :
  follows keeps_counter (assemble_rows config c obs l).
Proof.
  assert (HLST : forall lonObs, follows keeps_counter (vals_LST config c lonObs))
    by (intros; apply vals_LST_frame; keeps).
  unfold assemble_rows, compute_errors. cbv zeta.
  repeat first
    [ apply HLST
    | apply (follows_bind keeps_counter keeps_counter_trans); [|intros ?]
    | apply (follows_ret keeps_counter keeps_counter_refl)
    | apply (follows_bound keeps_counter keeps_counter_refl)
    | apply follows_modify; intros ?; reflexivity
    | match goal with
      | |- follows _ (logging _ _) => unfold logging
      | |- follows _ (if ?b then _ else _) => destruct b
      end ].
Qed.

(** Nothing after line 146 writes to the forecast counter. *)
Lemma process_case_keeps_counter pmin c :
  follows keeps_counter (process_case config pmin c).
Proof.
  unfold process_case.
  apply (follows_bind _ keeps_counter_trans);
    [apply read_observations_frame; keeps | intros obs].
  apply (follows_bind _ keeps_counter_trans);
    [apply base_loop_frame; keeps | intros l].
  apply (follows_bind _ keeps_counter_trans);
    [apply derived_loop_frame; keeps | intros l'].
  apply assemble_rows_keeps_counter.
Qed.

Lemma counter_grows_refl st : counter_grows st st.
Proof. intros key n H. exact H. Qed.

Lemma counter_grows_trans st1 st2 st3 :
  counter_grows st1 st2 -> counter_grows st2 st3 -> counter_grows st1 st3.
Proof. intros H1 H2 key n H. apply H2, H1, H. Qed.

(** A case never unregisters a forecast. *)
Lemma run_case_counter_grows pmin c : follows counter_grows (run_case config pmin c).
Proof.
  intros st.
  destruct (counter_used_FC st !! forecast_key config c) as [n|] eqn:Hkey.
  - rewrite (run_case_registered pmin c st n Hkey). intros key m Hm. exact Hm.
  - destruct (decide (curr_date c < date_start config \/ curr_date c > date_end config))
      as [Hout|Hin].
    + rewrite (run_case_out_of_period pmin c st Hkey Hout). intros key m Hm. exact Hm.
    + rewrite (run_case_fresh pmin c st Hkey) by lia.
      pose proof (process_case_keeps_counter pmin c
                    (set_counter (forecast_key config c) (case_no c)
                                 (announced config c st))) as Hkeep.
      unfold keeps_counter in Hkeep. intros key n Hn. rewrite Hkeep.
      cbn [counter_used_FC set_counter announced emit].
      destruct (decide (key = forecast_key config c)) as [->|Hne]; [congruence|].
      now rewrite lookup_insert_ne.
Qed.

Lemma run_cases_counter_grows pmin cases st st' :
  run_cases config pmin cases st = inl st' -> counter_grows st st'.
Proof.
  revert st. induction cases as [|c cases IH]; intros st; cbn [run_cases].
  - intros [= ->]. apply counter_grows_refl.
  - pose proof (run_case_counter_grows pmin c st) as Hc.
    destruct (run_case config pmin c st) as [[] st1|st1|exn st1];
      cbn [flow_state] in Hc; [| |discriminate];
      intros Hrest; eapply counter_grows_trans; eauto.
Qed.

(** C9. A case that is new to the forecast counter and inside the
    calibration period is registered before its files are read: the
    rest of the body (the observation file, the forecast files, the
    rows) starts from the state in which the key is registered and only
    two lines were logged, and the key is registered when the body
    ends, however it ends; so every later case of the run with the same
    key is skipped as a duplicate.  A case outside the calibration
    period leaves the counter as it was, so the key stays free. *)
Theorem registration_precedes_reading (pmin : Q) (c : Case) (st : RunState) :
  counter_used_FC st !! forecast_key config c = None ->
  (date_start config <= curr_date c <= date_end config ->
   let registered :=
     set_counter (forecast_key config c) (case_no c) (announced config c st) in
   let after := flow_state (run_case config pmin c st) in
   run_case config pmin c st = process_case config pmin c registered
   /\ trace registered
      = trace st ++ [Log INFO (MCase (case_no c));
                     Log INFO (MForecast (forecast_key config c))]
   /\ counter_used_FC after
      = <[forecast_key config c := case_no c]> (counter_used_FC st)
   /\ forall later c2 st2,
        run_cases config pmin later after = inl st2 ->
        forecast_key config c2 = forecast_key config c ->
        run_case config pmin c2 st2
        = Continue (emit (Log WARNING (MAlreadyConsidered (case_no c)))
                         (announced config c2 st2)))
  /\ (curr_date c < date_start config \/ curr_date c > date_end config ->
      run_case config pmin c st
      = Continue (emit (Log WARNING MOutOfPeriod) (announced config c st))
      /\ counter_used_FC (flow_state (run_case config pmin c st)) = counter_used_FC st
      /\ forall c2, forecast_key config c2 = forecast_key config c ->
           counter_used_FC (flow_state (run_case config pmin c st))
             !! forecast_key config c2 = None).
Proof.
  intros Hfresh. split.
  - intros Hin registered after.
    assert (Hrun : run_case config pmin c st = process_case config pmin c registered)
      by (apply run_case_fresh; assumption).
    assert (Hcounter : counter_used_FC after
                       = <[forecast_key config c := case_no c]> (counter_used_FC st)).
    { subst after. rewrite Hrun.
      apply (process_case_keeps_counter pmin c registered). }
    split; [exact Hrun|]. split.
    { subst registered. cbn [trace set_counter announced emit].
      now rewrite <- List.app_assoc. }
    split; [exact Hcounter|].
    intros later c2 st2 Hlater Hkey.
    apply run_case_registered. rewrite Hkey.
    apply (run_cases_counter_grows pmin later after st2 Hlater).
    rewrite Hcounter. apply lookup_insert_eq.
  - intros Hout. rewrite (run_case_out_of_period pmin c st Hfresh Hout).
    split; [reflexivity|]. split; [reflexivity|].
    intros c2 Hkey. rewrite Hkey. exact Hfresh.
Qed.

(** ** Reading and computing *)


Lemma trace_emits evs st : trace (emits evs st) = trace st ++ evs.
Proof.
  revert st. induction evs as [|e evs IH]; intros st; cbn [emits List.fold_left].
  - now rewrite List.app_nil_r.
  - fold (emits evs (emit e st)). rewrite IH. cbn [trace emit].
    now rewrite <- List.app_assoc.
Qed.

Lemma emits_fields evs st :
  counter_used_FC (emits evs st) = counter_used_FC st
  /\ obsTOT (emits evs st) = obsTOT st
  /\ obsUSED (emits evs st) = obsUSED st
  /\ mask (emits evs st) = mask st
  /\ ref_geopoints (emits evs st) = ref_geopoints st
  /\ ref_code (emits evs st) = ref_code st.
Proof.
  revert st. induction evs as [|e evs IH]; intros st; cbn [emits List.fold_left].
  - repeat split; reflexivity.
  - fold (emits evs (emit e st)). apply (IH (emit e st)).
Qed.



Lemma read_forecasts_ok paths fs computation_steps st :
  read_all paths = Some fs ->
  read_forecasts paths computation_steps st
  = Normal (computation_steps ++ fs) (emits (forecast_events paths) st).
Proof.
  revert fs computation_steps st.
  induction paths as [|path paths IH]; intros fs computation_steps st;
    cbn [read_all read_forecasts].
  - intros [= <-]. now rewrite List.app_nil_r.
  - destruct (from_path path) as [fieldset| |]; [|discriminate..].
    destruct (read_all paths) as [fs'|]; [|discriminate].
    intros [= <-]. forward. rewrite (IH fs') by reflexivity.
    now rewrite <- List.app_assoc.
Qed.

Lemma read_forecasts_fail paths computation_steps st :
  read_all paths = None ->
  exists st', read_forecasts paths computation_steps st = Continue st'.
Proof.
  revert computation_steps st.
  induction paths as [|path paths IH]; intros computation_steps st;
    cbn [read_all read_forecasts]; [discriminate|].
  forward.
  destruct (from_path path) as [fieldset| |].
  - destruct (read_all paths) as [fs'|]; [discriminate|]. intros _. now apply IH.
  - intros _. forward. eauto.
  - intros _. forward. eauto.
Qed.

Lemma read_all_length paths fs : read_all paths = Some fs -> length fs = length paths.
Proof.
  revert fs. induction paths as [|path paths IH]; intros fs; cbn [read_all].
  - now intros [= <-].
  - destruct (from_path path); [|discriminate..].
    destruct (read_all paths) as [fs'|]; [|discriminate].
    intros [= <-]. cbn [length]. f_equal. now apply IH.
Qed.

Lemma compute_base_ok c b v st :
  evaluate config c b = Some v ->
  exists paths,
    forecast_paths config c b = Some paths
    /\ compute_base config c b st = Normal v (after_compute b paths st).
Proof.
  unfold evaluate, forecast_paths, compute_base, after_compute.
  destruct (List.hd_error (inputs b)) as [code|]; [|discriminate].
  destruct (lead_times config b (step_s c)) as [steps|]; [|discriminate].
  cbn [mbind option_bind from_option]. forward.
  destruct (read_all _) as [fs|] eqn:Hfs; [|discriminate].
  cbn [mbind option_bind]. intros Hv.
  eexists. split; [reflexivity|].
  rewrite (bind_Normal _ _ _ _ _ (read_forecasts_ok _ fs [] st Hfs)).
  forward. cbn [app]. rewrite Hv, (read_all_length _ _ Hfs). reflexivity.
Qed.

Lemma compute_base_fail c b st :
  evaluate config c b = None ->
  forall v st', compute_base config c b st <> Normal v st'.
Proof.
  unfold evaluate, forecast_paths, compute_base.
  destruct (List.hd_error (inputs b)) as [code|]; [|discriminate].
  destruct (lead_times config b (step_s c)) as [steps|]; [|discriminate].
  cbn [mbind option_bind from_option]. forward.
  destruct (read_all _) as [fs|] eqn:Hfs; cbn [mbind option_bind]; intros Hv v st'.
  - rewrite (bind_Normal _ _ _ _ _ (read_forecasts_ok _ fs [] st Hfs)).
    forward. cbn [app]. rewrite Hv. discriminate.
  - destruct (read_forecasts_fail _ [] st Hfs) as [st1 Hst1].
    rewrite (bind_Continue _ _ _ _ Hst1). discriminate.
Qed.

(** ** Pairing with the observations, accumulated predictand *)

Hypothesis accumulated : is_accumulated config = true.

Lemma bind_bound {A B} (f : RunState -> option A) (k : A -> M B) st a :
  f st = Some a -> bind (bound f) k st = k a st.
Proof. intros Hf. unfold bind, bound. now rewrite Hf. Qed.

(** The state after the reference computation is paired: lines
    338-349. *)
Lemma pair_base_reference pmin obs b f l st :
  isPostProcessed b = true ->
  is_reference config b = true ->
  let g := projection f obs in
  let m := build_mask g pmin in
  let st1 :=
    set_ref_geopoints (filter_mask m g)
      (emit (Log INFO (MSelecting (shortname b)))
            (set_mask m (set_ref_code (shortname b) (emit (Log INFO MNearest) st)))) in
  pair_base config pmin obs b (VField f) l st
  = if bool_decide (length (filter_mask m g) = 0%nat)
    then Continue (emit (Log WARNING (MNoRetained (shortname b))) st1)
    else Normal (result_append (shortname b)
                   (around (get_geopoints_values (filter_mask m g)))
                   (cache_put (shortname b) (VField f) l)) st1.
Proof.
  intros Hpost Href g m st1. unfold pair_base. cbv zeta.
  rewrite Hpost, Href, accumulated. cbn [negb nearest_gridpoint]. cbv iota. forward.
  rewrite (bind_bound mask _ _ m) by reflexivity. forward.
  rewrite (bind_bound ref_geopoints _ _ (filter_mask m g)) by reflexivity.
  fold g m st1. case_bool_decide; forward; reflexivity.
Qed.



(** ** The derived computations, accumulated predictand *)





(** ** The observation file and the rows *)




Lemma read_observations_ok c st obs :
  read_geopoints (obs_path config c) = ROk obs ->
  obs <> [] ->
  read_observations config c st
  = Normal obs
      (add_obsTOT (Z.of_nat (length obs))
         (emits [Log INFO (MReadObservation (obs_path config c));
                 ReadObservationFile (obs_path config c)] st)).
Proof.
  intros Hread Hobs. unfold read_observations. cbv zeta. forward. rewrite Hread.
  rewrite bool_decide_eq_false_2 by (destruct obs; [congruence | discriminate]).
  forward. reflexivity.
Qed.

(** ** A case that does not run to its end sends no rows *)

Lemma silently_refl st : silently st st.
Proof. exists []. split; [now rewrite List.app_nil_r | constructor]. Qed.

Lemma silently_trans st1 st2 st3 : silently st1 st2 -> silently st2 st3 -> silently st1 st3.
Proof.
  intros (evs1 & Ht1 & Hq1) (evs2 & Ht2 & Hq2).
  exists (evs1 ++ evs2). split.
  - now rewrite Ht2, Ht1, List.app_assoc.
  - now apply List.Forall_app.
Qed.

Lemma silently_emit e st : is_chunk e = false -> silently st (emit e st).
Proof. intros He. exists [e]. split; [reflexivity | now constructor]. Qed.

Lemma silently_same_trace st st' : trace st' = trace st -> silently st st'.
Proof. intros Ht. exists []. split; [now rewrite List.app_nil_r | constructor]. Qed.

Lemma silent_unless_normal_bind {A B} (m : M A) (k : A -> M B) :
  follows silently m -> (forall a, silent_unless_normal (k a)) ->
  silent_unless_normal (bind m k).
Proof.
  intros Hm Hk st. unfold bind. specialize (Hm st).
  destruct (m st) as [a st1|st1|exn st1]; cbn [flow_state] in Hm; [|exact Hm..].
  specialize (Hk a st1). destruct (k a st1); [exact I|..];
    eapply silently_trans; eassumption.
Qed.

Ltac silent :=
  solve [ exact silently_refl | exact silently_trans | exact silently_emit
        | intros; now apply silently_same_trace ].

Ltac quiet :=
  solve [ exact quietly_refl | exact quietly_trans | exact quietly_emit
        | intros; now apply quietly_same_trace ].

Lemma compute_errors_silent obs : follows silently (compute_errors config obs).
Proof.
  unfold compute_errors.
  repeat first
    [ apply (follows_bind _ silently_trans); [|intros ?]
    | apply follows_ret; silent
    | apply follows_bound; silent
    | match goal with |- follows _ (if ?b then _ else _) => destruct b end ].
Qed.

Lemma assemble_rows_silent_unless_normal c obs l :
  silent_unless_normal (assemble_rows config c obs l).
Proof.
  unfold assemble_rows. cbv zeta. rewrite accumulated. cbv iota.
  apply silent_unless_normal_bind.
  { apply (follows_bind _ silently_trans);
      [apply follows_bound; silent | intros ?; apply follows_ret; silent]. }
  intros obs'. apply silent_unless_normal_bind.
  { unfold logging. apply follows_modify. intros st. now apply silently_emit. }
  intros _. apply silent_unless_normal_bind; [apply compute_errors_silent|].
  intros errors. apply silent_unless_normal_bind; [apply vals_LST_frame; silent|].
  intros lst. apply silent_unless_normal_bind.
  { apply follows_modify. intros st. now apply silently_same_trace. }
  intros _. apply silent_unless_normal_bind.
  { unfold logging. apply follows_modify. intros st. now apply silently_emit. }
  intros _. apply silent_unless_normal_bind; [apply follows_bound; silent|].
  intros g st. exact I.
Qed.

Lemma process_case_silent_unless_normal pmin c :
  silent_unless_normal (process_case config pmin c).
Proof.
  unfold process_case.
  apply silent_unless_normal_bind; [apply read_observations_frame; silent|].
  intros obs. apply silent_unless_normal_bind; [apply base_loop_frame; silent|].
  intros l. apply silent_unless_normal_bind; [apply derived_loop_frame; silent|].
  intros l'. apply assemble_rows_silent_unless_normal.
Qed.

(** Rows go to the serializer only when the body of the loop runs to
    its end: a case left by [continue] or by an exception has sent
    none. *)
Lemma run_case_silent_unless_normal pmin c :
  silent_unless_normal (run_case config pmin c).
Proof.
  intros st.
  destruct (counter_used_FC st !! forecast_key config c) as [n|] eqn:Hkey.
  { rewrite (run_case_registered pmin c st n Hkey). eexists. split.
    - cbn [trace emit announced]. rewrite <- !List.app_assoc. reflexivity.
    - repeat constructor. }
  destruct (decide (curr_date c < date_start config \/ curr_date c > date_end config))
    as [Hout|Hin].
  { rewrite (run_case_out_of_period pmin c st Hkey Hout). eexists. split.
    - cbn [trace emit announced]. rewrite <- !List.app_assoc. reflexivity.
    - repeat constructor. }
  rewrite (run_case_fresh pmin c st Hkey) by lia.
  set (registered := set_counter _ _ _).
  assert (Hreg : silently st registered).
  { eexists. split.
    - subst registered. cbn [trace emit announced set_counter].
      rewrite <- !List.app_assoc. reflexivity.
    - repeat constructor. }
  pose proof (process_case_silent_unless_normal pmin c registered) as Hq.
  destruct (process_case config pmin c registered); [exact I|..];
    eapply silently_trans; eassumption.
Qed.

(** When the base loop does not run to its end, the case ends where the
    loop ended: quietly. *)
Lemma process_case_stops_in_base_loop pmin c st :
  (forall obs st1 l st2,
     base_loop config pmin c obs (base_computations config)
       {| computations_cache := ∅; computations_result := [] |} st1
     <> Normal l st2) ->
  (forall st', process_case config pmin c st <> Normal tt st')
  /\ quietly st (flow_state (process_case config pmin c st)).
Proof.
  intros Hloop. unfold process_case.
  assert (Hobs : quietly st (flow_state (read_observations config c st)))
    by (apply read_observations_frame; quiet).
  destruct (read_observations config c st) as [obs st1|st1|exn st1] eqn:Hread;
    cbn [flow_state] in Hobs;
    [rewrite (bind_Normal _ _ _ _ _ Hread)
    |rewrite (bind_Continue _ _ _ _ Hread); split; [discriminate | exact Hobs]
    |rewrite (bind_Raise _ _ _ _ _ Hread); split; [discriminate | exact Hobs]].
  assert (Hbase : quietly st1
                    (flow_state
                       (base_loop config pmin c obs (base_computations config)
                          {| computations_cache := ∅; computations_result := [] |} st1)))
    by (apply base_loop_frame; quiet).
  specialize (Hloop obs st1).
  destruct (base_loop config pmin c obs (base_computations config) _ st1)
    as [l st2|st2|exn st2] eqn:Hrun; cbn [flow_state] in Hbase.
  - now destruct (Hloop l st2).
  - rewrite (bind_Continue _ _ _ _ Hrun).
    split; [discriminate | eapply quietly_trans; eassumption].
  - rewrite (bind_Raise _ _ _ _ _ Hrun).
    split; [discriminate | eapply quietly_trans; eassumption].
Qed.

(** The events of a case up to the pairing of the reference. *)
Lemma reference_paired_trace c st (obs : Geopoints) b paths :
  trace (emit (Log INFO MNearest)
           (after_compute b paths
              (add_obsTOT (Z.of_nat (length obs))
                 (emits [Log INFO (MReadObservation (obs_path config c));
                         ReadObservationFile (obs_path config c)]
                    (set_counter (forecast_key config c) (case_no c)
                                 (announced config c st))))))
  = trace st
    ++ [Log INFO (MCase (case_no c)); Log INFO (MForecast (forecast_key config c));
        Log INFO (MReadObservation (obs_path config c));
        ReadObservationFile (obs_path config c)]
    ++ forecast_events paths
    ++ [Log INFO (MComputing (fullname b) (length paths)); Log INFO MNearest].
Proof.
  unfold after_compute. cbn [trace emit add_obsTOT]. rewrite trace_emits.
  cbn [trace emit add_obsTOT emits List.fold_left set_counter announced].
  rewrite <- !List.app_assoc. reflexivity.
Qed.

(** C8. With an accumulated predictand, a case whose mask keeps no
    observation of the reference computation is left by [continue]:
    its last log line is the warning, no rows go to the serializer, the
    total of retained observations stays, and the run goes on with the
    next case from the state the case left.  A case whose reference
    computation cannot be evaluated does not run to its end either and
    sends no rows. *)
Theorem retention_exhausted_skips
    (pmin : Q) (c : Case) (st : RunState) (r : Computation) (others : list Computation) :
  counter_used_FC st !! forecast_key config c = None ->
  date_start config <= curr_date c <= date_end config ->
  base_computations config = r :: others ->
  is_reference config r = true ->
  isPostProcessed r = true ->
  (forall obs f,
     read_geopoints (obs_path config c) = ROk obs ->
     obs <> [] ->
     evaluate config c r = Some (VField f) ->
     filter_mask (build_mask (projection f obs) pmin) (projection f obs) = [] ->
     exists st' evs,
       run_case config pmin c st = Continue st'
       /\ trace st' = trace st ++ evs ++ [Log WARNING (MNoRetained (shortname r))]
       /\ Forall (fun e => is_chunk e = false) evs
       /\ obsUSED st' = obsUSED st
       /\ forall rest,
            run_cases config pmin (c :: rest) st = run_cases config pmin rest st')
  /\ (evaluate config c r = None ->
      (forall st', run_case config pmin c st <> Normal tt st')
      /\ quietly st (flow_state (run_case config pmin c st))).
Proof.
  intros Hfresh Hin Hbase Href Hpost. split.
  - intros obs f Hread Hobs Heval Hnone.
    pose proof (run_case_fresh pmin c st Hfresh Hin) as Hrun.
    unfold process_case in Hrun.
    rewrite (bind_Normal _ _ _ _ _ (read_observations_ok c _ obs Hread Hobs)) in Hrun.
    rewrite Hbase in Hrun. cbn [base_loop] in Hrun. unfold base_step in Hrun.
    rewrite !bind_assoc in Hrun.
    destruct (compute_base_ok c r (VField f) 
                (add_obsTOT (Z.of_nat (length obs))
                   (emits [Log INFO (MReadObservation (obs_path config c));
                           ReadObservationFile (obs_path config c)]
                      (set_counter (forecast_key config c) (case_no c)
                                   (announced config c st)))) Heval)
      as (paths & Hpaths & Hcompute).
    rewrite (bind_Normal _ _ _ _ _ Hcompute) in Hrun.
    erewrite bind_Continue in Hrun; cycle 1.
    { rewrite (pair_base_reference pmin obs r f _ _ Hpost Href). cbv zeta.
      rewrite Hnone. rewrite bool_decide_eq_true_2 by reflexivity. reflexivity. }
    eexists _, _. split; [exact Hrun|]. split.
    { set (paired := emit (Log INFO MNearest) _).
      cbn [trace emit set_ref_geopoints set_mask set_ref_code].
      subst paired. rewrite reference_paired_trace.
      instantiate (1 := [Log INFO (MCase (case_no c));
                         Log INFO (MForecast (forecast_key config c));
                         Log INFO (MReadObservation (obs_path config c));
                         ReadObservationFile (obs_path config c)]
                        ++ forecast_events paths
                        ++ [Log INFO (MComputing (fullname r) (length paths));
                            Log INFO MNearest; Log INFO (MSelecting (shortname r))]).
      rewrite <- !List.app_assoc. reflexivity. }
    split.
    { repeat constructor. apply List.Forall_app. split; [|repeat constructor].
      unfold forecast_events. apply List.Forall_flat_map, List.Forall_forall.
      intros path _. repeat constructor. }
    split.
    { unfold after_compute.
      cbn [obsUSED emit set_ref_geopoints set_mask set_ref_code add_obsTOT].
      destruct (emits_fields (forecast_events paths)
                  (add_obsTOT (Z.of_nat (length obs))
                     (emits [Log INFO (MReadObservation (obs_path config c));
                             ReadObservationFile (obs_path config c)]
                        (set_counter (forecast_key config c) (case_no c)
                                     (announced config c st)))))
        as (_ & _ & -> & _). reflexivity. }
    intros rest. cbn [run_cases]. now rewrite Hrun.
  - intros Heval.
    rewrite (run_case_fresh pmin c st Hfresh Hin).
    set (registered := set_counter _ _ _).
    destruct (process_case_stops_in_base_loop pmin c registered) as [Hnot Hquiet].
    { intros obs st1 l st2 Hloop. rewrite Hbase in Hloop. cbn [base_loop] in Hloop.
      apply bind_Normal_inv in Hloop as (l1 & st3 & Hstep & _).
      unfold base_step in Hstep.
      apply bind_Normal_inv in Hstep as (v & st4 & Hv & _).
      now apply (compute_base_fail c r st1 Heval) in Hv. }
    split; [exact Hnot|].
    eapply quietly_trans; [|exact Hquiet].
    split; [reflexivity|]. eexists. split.
    + subst registered. cbn [trace emit announced set_counter].
      rewrite <- !List.app_assoc. reflexivity.
    + repeat constructor.
Qed.

(** ** The retention mask *)










End RunnerFacts.

(** * Worked cases *)

Section Worked.

Import Processor CaseSpec Examples.
Local Open Scope Z_scope.

(** Closed statements are settled by evaluation. *)
Ltac evaluated := vm_compute; first [reflexivity | split; discriminate | discriminate].

(** The second case has the forecast of the first and is skipped. *)
Lemma duplicate_case_skipped_witness :
  forecast_key (W := latitude_world) cfg6 case2
  = forecast_key (W := latitude_world) cfg6 case1
  /\ counter_used_FC first_state !! forecast_key (W := latitude_world) cfg6 case1
     = Some (case_no case1)
  /\ exists st',
       run_case (W := latitude_world) cfg6 1 case2 first_state = Continue st'
       /\ trace st'
          = trace first_state
            ++ [Log INFO (MCase (case_no case2));
                Log INFO (MForecast (forecast_key (W := latitude_world) cfg6 case2));
                Log WARNING (MAlreadyConsidered (case_no case1))]
       /\ counter_used_FC st' = counter_used_FC first_state
       /\ obsTOT st' = obsTOT first_state
       /\ obsUSED st' = obsUSED first_state
       /\ mask st' = mask first_state
       /\ ref_geopoints st' = ref_geopoints first_state.
Proof.
  split; [evaluated|]. split; [evaluated|].
  apply (duplicate_case_skipped (W := latitude_world) cfg6 1 case1 case2 first_state);
    evaluated.
Defined.

(** The first case is registered although its observation file is
    missing, and the second case is skipped for it; the late case is
    outside the calibration period and registers nothing. *)
Lemma registration_precedes_reading_witness :
  (exists st1,
     run_case (W := no_observation_world) cfg6 1 case1 initial_state = Continue st1
     /\ counter_used_FC st1
        = <[forecast_key (W := no_observation_world) cfg6 case1 := 1]> ∅
     /\ run_case (W := no_observation_world) cfg6 1 case2 st1
        = Continue (emit (Log WARNING (MAlreadyConsidered 1))
                         (announced (W := no_observation_world) cfg6 case2 st1)))
  /\ counter_used_FC
       (flow_state (run_case (W := latitude_world) cfg6 1 late_case initial_state))
     = ∅.
Proof.
  split.
  - destruct (registration_precedes_reading (W := no_observation_world) cfg6 1 case1
                initial_state eq_refl) as [Hin _].
    destruct Hin as (_ & _ & Hcounter & Hlater); [evaluated|].
    eexists. split; [vm_compute; reflexivity|]. split; [exact Hcounter|].
    apply (Hlater [] case2); [reflexivity | evaluated].
  - destruct (registration_precedes_reading (W := latitude_world) cfg6 1 late_case
                initial_state eq_refl) as [_ Hout].
    destruct Hout as (_ & Hcounter & _); [right; evaluated|].
    exact Hcounter.
Defined.

(** With a minimum of 1000 the mask keeps no observation; without the
    forecast files the reference cannot be evaluated. *)
Lemma retention_exhausted_skips_witness :
  (exists st' evs,
     run_case (W := latitude_world) cfg6_dry 1000 case1 initial_state = Continue st'
     /\ trace st' = trace initial_state ++ evs ++ [Log WARNING (MNoRetained "tp_acc")]
     /\ Forall (fun e => is_chunk e = false) evs
     /\ obsUSED st' = 0
     /\ forall rest,
          run_cases (W := latitude_world) cfg6_dry 1000 (case1 :: rest) initial_state
          = run_cases (W := latitude_world) cfg6_dry 1000 rest st')
  /\ (forall st', run_case (W := no_forecast_world) cfg6 1 case1 initial_state
                  <> Normal tt st')
  /\ quietly initial_state
       (flow_state (run_case (W := no_forecast_world) cfg6 1 case1 initial_state)).
Proof.
  split.
  - destruct (retention_exhausted_skips (W := latitude_world) cfg6_dry eq_refl 1000 case1
                initial_state tp_acc [cape_wa; cape_max; sr24]
                ltac:(evaluated) ltac:(evaluated) ltac:(evaluated) ltac:(evaluated)
                ltac:(evaluated)) as [Hdry _].
    apply (Hdry three_observations 0%Q); evaluated.
  - destruct (retention_exhausted_skips (W := no_forecast_world) cfg6 eq_refl 1 case1
                initial_state tp_acc [cape_wa; cape_max; sr24]
                ltac:(evaluated) ltac:(evaluated) ltac:(evaluated) ltac:(evaluated)
                ltac:(evaluated)) as [_ Hfail].
    apply Hfail. evaluated.
Defined.


Example first_case_mask : mask first_state = Some [false; true; true].
Proof. evaluated. Qed.

Example first_case_retained : obsUSED first_state = 2.
Proof. evaluated. Qed.

End Worked.

(** * More on the operator library *)

Section OperatorFacts.

Import Utils.
Local Open Scope Q_scope.




(** X1. The average operator on same-shaped arrays gives an array of
    the same shape whose entry at every index is the sum of the inputs'
    entries at that index divided by the number of inputs. *)
Theorem average_is_mean (first : list Q) (rest : list (list Q)) (n : nat) :
  Forall (fun a => length a = n) (first :: rest) ->
  exists r, compute_average_field (first :: rest) = Some r
    /\ length r = n
    /\ forall k, (k < n)%nat ->
         List.nth k r 0
         == Spec.Qsum (Spec.entries k (first :: rest))
            / inject_Z (Z.of_nat (length (first :: rest))).
Proof.
  intros Hshape.
  apply List.Forall_cons_iff in Hshape as [Hfirst Hrest].
  destruct (reduce_add_arrays rest first n Hrest Hfirst) as [Hlen Hnth].
  unfold reduce_add in Hlen, Hnth.
  eexists. split; [reflexivity|]. rewrite vdivq_array. split.
  - now rewrite List.length_map.
  - intros k Hk. rewrite nth_map_Q by lia. rewrite Hnth by exact Hk.
    unfold reduce_add. cbn [vadd scalar_arith].
    rewrite fold_left_Qplus.
    cbn [Spec.entries List.map Spec.Qsum List.fold_right].
    reflexivity.
Qed.

(** Three arrays of two entries: the means are 20 and 2. *)
Lemma average_is_mean_witness :
  exists r, compute_average_field [[10; 1]; [20; 2]; [30; 3]] = Some r
    /\ length r = 2%nat
    /\ forall k, (k < 2)%nat ->
         List.nth k r 0
         == Spec.Qsum (Spec.entries k [[10; 1]; [20; 2]; [30; 3]])
            / inject_Z (Z.of_nat (length [[10; 1]; [20; 2]; [30; 3]])).
Proof.
  apply (average_is_mean [10; 1] [[20; 2]; [30; 3]] 2).
  repeat constructor.
Defined.





Lemma nth_error_middle {V} (x : V) (args : list V) :
  exists v, List.nth_error (x :: args) (length (x :: args) / 2) = Some v
            /\ v ∈ x :: args.
Proof.
  destruct (List.nth_error (x :: args) (length (x :: args) / 2)) as [v|] eqn:Hv.
  - exists v. split; [reflexivity|]. apply list_elem_of_In.
    eapply List.nth_error_In. exact Hv.
  - apply List.nth_error_None in Hv. exfalso.
    pose proof (Nat.Div0.div_lt_upper_bound (length (x :: args)) 2 (length (x :: args))).
    cbn [length] in *. lia.
Qed.

(** X5. The three instantaneous selectors never fail on a non-empty
    input and return one of the inputs: the first, the last, and the one
    at index len/2.  The last two coincide on two inputs, all three on
    one; with no input all three raise. *)
Theorem instantaneous_selectors {V} (x : V) (args : list V) :
  compute_instantaneous_field_100 (x :: args) = Some x
  /\ compute_instantaneous_field_001 (x :: args) = Some (List.last args x)
  /\ (exists v, compute_instantaneous_field_010 (x :: args) = Some v /\ v ∈ x :: args)
  /\ (forall y : V, compute_instantaneous_field_010 [x; y]
                    = compute_instantaneous_field_001 [x; y])
  /\ compute_instantaneous_field_010 [x] = Some x
  /\ compute_instantaneous_field_001 [x] = Some x
  /\ compute_instantaneous_field_100 (V := V) [] = None
  /\ compute_instantaneous_field_010 (V := V) [] = None
  /\ compute_instantaneous_field_001 (V := V) [] = None.
Proof.
  split; [reflexivity|]. split.
  - unfold compute_instantaneous_field_001, last_item.
    destruct (List.exists_last (l := x :: args)) as (l & z & Hl); [discriminate|].
    rewrite Hl at 1. rewrite List.rev_app_distr. cbn [List.rev app List.hd_error].
    f_equal.
    destruct args as [|y args]; [destruct l as [|? [|? ?]]; now inversion Hl|].
    transitivity (List.last (x :: y :: args) x); [|reflexivity].
    rewrite Hl. now rewrite List.last_last.
  - split; [apply nth_error_middle|]. repeat split; reflexivity.
Qed.

(** X6. For an hour of the day and longitudes between -180 and 180 the
    local-solar-time operator gives one time per longitude, each of them
    a time of the day: at least 0 and below 24. *)
Theorem local_solar_time_in_day (longitudes : list Q) (hour : Z) :
  (0 <= hour < 24)%Z ->
  Forall (fun lon => -180 <= lon <= 180) longitudes ->
  length (compute_local_solar_time longitudes hour) = length longitudes
  /\ Forall (fun t => 0 <= t < 24) (compute_local_solar_time longitudes hour).
Proof.
  intros Hhour Hlon. rewrite local_solar_time_pointwise.
  split; [apply List.length_map|].
  assert (Hh : 0 <= inject_Z hour < 24).
  { change 0 with (inject_Z 0). change 24 with (inject_Z 24).
    rewrite <- Zle_Qle, <- Zlt_Qlt. exact Hhour. }
  induction Hlon as [|lon longitudes Hl Hlon IH]; cbn [List.map]; constructor;
    [|exact IH].
  rewrite lst_point_spec. unfold Spec.local_solar_time. cbv zeta.
  assert (HA : lon <= 0 -> Qabs lon == - lon) by apply Qabs_neg.
  revert HA. generalize (Qabs lon). intros A HA.
  unfold Qdiv. change (/ 15) with (1 # 15).
  destruct (Qeq_dec lon 0); [lra|].
  destruct (Qlt_le_dec lon 0).
  - destruct (Qlt_le_dec _ 0); lra.
  - destruct (Qlt_le_dec _ 24); lra.
Qed.

(** At 23 UTC: 180 E is at 11, 172.5 W at 11:30, Greenwich at 0. *)
Lemma local_solar_time_in_day_witness :
  length (compute_local_solar_time [180; -172.5; 0] 23) = 3%nat
  /\ Forall (fun t => 0 <= t < 24) (compute_local_solar_time [180; -172.5; 0] 23).
Proof.
  apply (local_solar_time_in_day [180; -172.5; 0] 23); [lia|].
  repeat constructor; cbn; lra.
Defined.

End OperatorFacts.

(** * More on the lead-time resolver and on the partitioner *)

Section SamplingFacts.

Import Processor.
Local Open Scope Z_scope.

Lemma stepping_kind_cases (kind : string) :
  kind ∈ stepping_kinds <->
  kind ∈ ["WEIGHTED_AVERAGE_FIELD"; "AVERAGE_FIELD"]
  \/ kind ∈ ["MAXIMUM_FIELD"; "MINIMUM_FIELD"].
Proof. unfold stepping_kinds. rewrite !elem_of_cons. rewrite !elem_of_nil. tauto. Qed.

Lemma stepping_kind_not_solar (kind : string) :
  kind ∈ stepping_kinds -> kind <> "24H_SOLAR_RADIATION".
Proof.
  unfold stepping_kinds. rewrite !elem_of_cons, elem_of_nil.
  intros [->|[->|[->|[->|[]]]]]; discriminate.
Qed.

Lemma py_range_None (start stop step : Z) :
  py_range start stop step = None <-> step = 0.
Proof.
  unfold py_range. case_bool_decide; split; intros; congruence.
Qed.

(** X7. The resolver fails (the [ValueError] of [range] with a zero
    step) in one situation only: an accumulated predictand, a sampling
    interval of zero and one of the kinds that step through the period
    (the two averages, the maximum, the minimum).  For every other
    configuration it returns lead times. *)
Theorem lead_times_fails_iff (config : Config) (computation : Computation) (s : Z) :
  lead_times config computation s = None
  <-> is_accumulated config = true
      /\ sampling_interval config = 0
      /\ field computation ∈ stepping_kinds.
Proof.
  unfold lead_times. cbv zeta.
  destruct (is_accumulated config); cbn [negb];
    [|split; [discriminate | intros [? _]; discriminate]].
  case_bool_decide as Hsolar.
  { split.
    - repeat case_bool_decide; discriminate.
    - intros (_ & _ & Hkind). now apply stepping_kind_not_solar in Hkind. }
  case_bool_decide as Havg.
  { rewrite py_range_None, stepping_kind_cases. tauto. }
  case_bool_decide as Hmax.
  { rewrite py_range_None, stepping_kind_cases. tauto. }
  rewrite stepping_kind_cases. split; [discriminate | tauto].
Qed.

Lemma py_range_length (start stop step : Z) (l : list Z) :
  0 < step -> py_range start stop step = Some l ->
  Z.of_nat (length l) = Z.max 0 ((stop - start + step - 1) `div` step).
Proof.
  intros Hstep. unfold py_range.
  rewrite bool_decide_eq_false_2 by lia. rewrite bool_decide_eq_true_2 by lia.
  intros [= <-]. rewrite List.length_map, List.length_seq. lia.
Qed.

(** X8. For an accumulated predictand, a positive sampling interval and
    a period of zero hours or more, the kinds that step through the
    period get: for the averages acc/interval + 1 lead times from s, for
    the maximum and the minimum acc/interval lead times from s+interval
    (none at all when the period is shorter than the interval); all of
    them within the period; and the end of the period s+acc is among
    them only when the interval divides the period. *)
Theorem lead_times_sampling (config : Config) (computation : Computation) (s : Z) :
  is_accumulated config = true ->
  0 < sampling_interval config ->
  0 <= accumulation config ->
  field computation ∈ stepping_kinds ->
  let acc := accumulation config in
  let delta := sampling_interval config in
  let averaged := bool_decide (field computation ∈ ["WEIGHTED_AVERAGE_FIELD"; "AVERAGE_FIELD"]) in
  exists steps,
    lead_times config computation s = Some steps
    /\ Z.of_nat (length steps) = acc `div` delta + (if averaged then 1 else 0)
    /\ Forall (fun x => (if averaged then s else s + delta) <= x <= s + acc) steps
    /\ (s + acc ∈ steps <->
        (delta | acc) /\ (if averaged then True else delta <= acc)).
Proof.
  intros Hacc Hdelta Hperiod Hkind acc delta averaged.
  pose proof (stepping_kind_not_solar _ Hkind) as Hsolar.
  apply stepping_kind_cases in Hkind.
  unfold lead_times. rewrite Hacc. cbn [negb]. cbv zeta.
  rewrite (bool_decide_eq_false_2 _ Hsolar).
  fold acc delta. subst averaged.
  assert (Hend : forall from k : Z, s + acc = from + k * delta ->
                 (delta | s + acc - from)).
  { intros from k Hk. exists k. lia. }
  case_bool_decide as Havg.
  - destruct (py_range_positive s (s + acc + 1) delta Hdelta) as (l & Hl & _ & Hmem).
    exists l. split; [exact Hl|]. split; [|split].
    + rewrite (py_range_length _ _ _ _ Hdelta Hl).
      subst acc delta.
      replace (s + accumulation config + 1 - s + sampling_interval config - 1)
        with (accumulation config + 1 * sampling_interval config) by lia.
      rewrite Z.div_add by lia.
      pose proof (Z.div_pos (accumulation config) (sampling_interval config)). lia.
    + apply Forall_forall. intros x Hx. apply Hmem in Hx as (k & Hk & -> & Hlt). nia.
    + rewrite Hmem. split.
      * intros (k & Hk & Heq & _). split; [|exact I]. exists k. lia.
      * intros [[k Hk] _]. exists k. split; [nia|]. split; lia.
  - destruct Hkind as [Hkind|Hkind]; [contradiction|].
    rewrite (bool_decide_eq_true_2 _ Hkind).
    destruct (py_range_positive (s + delta) (s + acc + 1) delta Hdelta)
      as (l & Hl & _ & Hmem).
    exists l. split; [exact Hl|]. split; [|split].
    + rewrite (py_range_length _ _ _ _ Hdelta Hl).
      subst acc delta.
      replace (s + accumulation config + 1 - (s + sampling_interval config)
               + sampling_interval config - 1)
        with (accumulation config) by lia.
      pose proof (Z.div_pos (accumulation config) (sampling_interval config)). lia.
    + apply Forall_forall. intros x Hx. apply Hmem in Hx as (k & Hk & -> & Hlt). nia.
    + rewrite Hmem. split.
      * intros (k & Hk & Heq & _). split; [exists (k + 1); lia | nia].
      * intros [[k Hk] Hle]. exists (k - 1). split; [nia|]. split; lia.
Qed.

(** A period of 6 hours sampled every 3 and every 4 hours. *)
Lemma lead_times_sampling_witness :
  (exists steps,
     lead_times (Examples.rainfall_config 6 [Examples.cape_wa]) Examples.cape_wa 12
     = Some steps
     /\ Z.of_nat (length steps) = 6 `div` 3 + 1
     /\ Forall (fun x => 12 <= x <= 12 + 6) steps
     /\ (12 + 6 ∈ steps <-> (3 | 6) /\ True))
  /\ lead_times (Examples.rainfall_config 6 [Examples.cape_max]) Examples.cape_max 12
     = Some [15; 18].
Proof.
  split; [|reflexivity].
  apply (lead_times_sampling (Examples.rainfall_config 6 [Examples.cape_wa])
                             Examples.cape_wa 12);
    [reflexivity | reflexivity | discriminate | ].
  apply stepping_kind_cases. left. constructor.
Defined.

Lemma filter_split {A} (key : A -> bool) (l : list A) :
  List.filter key l ++ List.filter (fun y => negb (key y)) l ≡ₚ l.
Proof.
  induction l as [|x l IH]; cbn [List.filter]; [reflexivity|].
  destruct (key x); cbn [negb app].
  - now rewrite IH.
  - rewrite <- Permutation_middle. now rewrite IH.
Qed.

Lemma filter_filter {A} (f g : A -> bool) (l : list A) :
  List.filter f (List.filter g l) = List.filter (fun x => g x && f x) l.
Proof.
  induction l as [|x l IH]; cbn [List.filter]; [reflexivity|].
  destruct (g x); cbn [List.filter andb]; [destruct (f x)|]; now rewrite IH.
Qed.

Lemma base_computations_stable (config : Config) :
  base_computations config
  = List.filter (is_reference config)
      (List.filter (fun c => negb (is_derived config c)
                             && bool_decide (field c ≠ "LOCAL_SOLAR_TIME"))
                   (computations config))
    ++ List.filter (fun c => negb (is_reference config c))
         (List.filter (fun c => negb (is_derived config c)
                                && bool_decide (field c ≠ "LOCAL_SOLAR_TIME"))
                      (computations config)).
Proof. unfold base_computations. rewrite base_candidates. apply sorted_reverse_stable. Qed.

(** X9. The base list followed by the derived list is a rearrangement
    of the configured computations other than local solar time: every
    such computation is in exactly one of the two lists, as often as it
    is configured, and a local-solar-time computation is in neither. *)
Theorem partition_rearranges (config : Config) :
  base_computations config ++ derived_computations config
  ≡ₚ List.filter (fun c => bool_decide (field c ≠ "LOCAL_SOLAR_TIME")) (computations config).
Proof.
  rewrite base_computations_stable, filter_split.
  unfold derived_computations.
  set (other := fun c : Computation => bool_decide (field c ≠ "LOCAL_SOLAR_TIME")).
  rewrite <- (filter_split (is_derived config) (List.filter other (computations config))).
  rewrite Permutation_app_comm. rewrite !filter_filter.
  apply Permutation_app; apply reflexive_eq; apply List.filter_ext; intros c.
  - unfold is_derived, other. destruct (bool_decide (field c ≠ "LOCAL_SOLAR_TIME"));
      [|now rewrite andb_false_r]. cbn [andb]. now rewrite andb_true_r.
  - apply andb_comm.
Qed.

(** X10. When the predictand is one of the predictors, a configured
    computation on the predictand alone, of a kind other than local
    solar time, puts a reference computation at the head of the base
    list: the first base computation of every case is then one whose
    only input is the predictand. *)
Theorem reference_leads_base (config : Config) (c : Computation) :
  predictand_code config ∈ predictors_codes config ->
  c ∈ computations config ->
  inputs c = [predictand_code config] ->
  field c <> "LOCAL_SOLAR_TIME" ->
  exists b others,
    base_computations config = b :: others
    /\ is_reference config b = true
    /\ inputs b = [predictand_code config]
    /\ b ∈ computations config.
Proof.
  intros Hpred Hc Hin Hkind.
  assert (Href : forall b, is_reference config b = true -> inputs b = [predictand_code config]).
  { intros b. unfold is_reference. rewrite andb_true_iff, !bool_decide_eq_true.
    destruct (inputs b) as [|code [|code' rest]]; cbn [length List.hd_error];
      intros [Hlen Hhd]; try discriminate. now injection Hhd as ->. }
  assert (Hcref : is_reference config c = true).
  { unfold is_reference. rewrite Hin. cbn [length List.hd_error].
    now rewrite !bool_decide_eq_true_2. }
  assert (Hcbase : is_derived config c = false).
  { apply not_true_is_false. intros Hd. apply is_derived_iff in Hd as ((code & Hcode & Hout) & _).
    rewrite Hin in Hcode. apply list_elem_of_singleton in Hcode as ->. contradiction. }
  rewrite base_computations_stable.
  set (candidates := List.filter _ (computations config)).
  assert (Hcand : c ∈ List.filter (is_reference config) candidates).
  { apply list_elem_of_In, List.filter_In. split; [|exact Hcref].
    apply List.filter_In. split; [now apply list_elem_of_In|].
    rewrite Hcbase. cbn [negb andb]. now apply bool_decide_eq_true_2. }
  destruct (List.filter (is_reference config) candidates) as [|b others] eqn:Hb.
  { now apply elem_of_nil in Hcand. }
  assert (Hbin : List.In b (List.filter (is_reference config) candidates)).
  { rewrite Hb. now left. }
  apply List.filter_In in Hbin as [Hbcand Hbref].
  apply List.filter_In in Hbcand as [Hbconf _].
  exists b, (others ++ List.filter (fun c => negb (is_reference config c)) candidates).
  split; [reflexivity|]. split; [exact Hbref|]. split; [now apply Href|].
  now apply list_elem_of_In.
Qed.

Lemma reference_leads_base_witness :
  exists b others,
    base_computations Examples.cfg6 = b :: others
    /\ is_reference Examples.cfg6 b = true
    /\ inputs b = [predictand_code Examples.cfg6]
    /\ b ∈ computations Examples.cfg6.
Proof.
  apply (reference_leads_base Examples.cfg6 Examples.tp_acc).
  - vm_compute. constructor.
  - vm_compute. constructor.
  - reflexivity.
  - discriminate.
Defined.

End SamplingFacts.

(** * The totals, the rows and the files of a run *)

Section CaseFacts.

Import Processor CaseSpec Accounting.
Local Open Scope Z_scope.

Context `{W : World}.
Variable config : Config.

Ltac known := match goal with H : _ |- _ => solve [apply H] end.

(** One step through an action: a bind, an end, a change of the state
    one of the hypotheses allows, or a test. *)
Ltac steps :=
  repeat first
    [ known
    | apply follows_bind; [known | | intros ?]
    | apply follows_ret; known
    | apply follows_continue; known
    | apply follows_raise; known
    | apply follows_get; known
    | apply follows_bound; known
    | apply follows_from_option; known
    | apply follows_modify; intros ?; known
    | match goal with
      | |- follows _ (logging _ _) => unfold logging
      | |- follows _ (if ?b then _ else _) => destruct b
      | |- follows _ (match ?x with _ => _ end) => destruct x
      end ].

(** ** What the steps of a case keep, by what they change *)

Section Steps.

Variable R : RunState -> RunState -> Prop.
Hypothesis R_refl : forall st, R st st.
Hypothesis R_trans : forall st1 st2 st3, R st1 st2 -> R st2 st3 -> R st1 st3.
Hypothesis R_log : forall lv msg st, R st (emit (Log lv msg) st).
Hypothesis R_forecast : forall path st, R st (emit (ReadForecastFile path) st).
Hypothesis R_mask : forall m st, R st (set_mask m st).
Hypothesis R_reference : forall g st, R st (set_ref_geopoints g st).
Hypothesis R_code : forall code st, R st (set_ref_code code st).

Lemma read_forecasts_steps paths computation_steps :
  follows R (read_forecasts paths computation_steps).
Proof.
  revert computation_steps.
  induction paths as [|path paths IH]; intros computation_steps; cbn [read_forecasts];
    steps.
Qed.

Lemma nearest_gridpoint_steps v obs : follows R (nearest_gridpoint v obs).
Proof. unfold nearest_gridpoint. steps. Qed.

Lemma compute_base_steps c computation : follows R (compute_base config c computation).
Proof. pose proof read_forecasts_steps. unfold compute_base. steps. Qed.

Lemma pair_base_steps pmin obs computation v l :
  follows R (pair_base config pmin obs computation v l).
Proof. pose proof nearest_gridpoint_steps. unfold pair_base. cbv zeta. steps. Qed.

(** A computation that does not set the reference values. *)
Lemma pair_base_steps_other pmin obs computation v l :
  sets_reference config computation = false ->
  follows R (pair_base config pmin obs computation v l).
Proof.
  pose proof nearest_gridpoint_steps. unfold sets_reference, pair_base. cbv zeta.
  destruct (isPostProcessed computation); cbn [negb]; [|intros _; steps].
  rewrite andb_true_r. intros ->. steps.
Qed.

Lemma cache_lookup_steps cache codes : follows R (cache_lookup cache codes).
Proof. induction codes as [|code codes IH]; cbn [cache_lookup]; steps. Qed.

Lemma project_steps v obs : follows R (project config v obs).
Proof. pose proof nearest_gridpoint_steps. unfold project. steps. Qed.

Lemma as_array_steps v : follows R (as_array v).
Proof. unfold as_array. steps. Qed.

Lemma values_of_steps v : follows R (values_of v).
Proof. unfold values_of. steps. Qed.

Lemma derived_step_steps obs computation l :
  follows R (derived_step config obs computation l).
Proof.
  pose proof cache_lookup_steps. pose proof project_steps.
  pose proof as_array_steps. pose proof values_of_steps.
  unfold derived_step. steps.
Qed.

Lemma derived_loop_steps obs todo l : follows R (derived_loop config obs todo l).
Proof.
  revert l. induction todo as [|computation todo IH]; intros l; cbn [derived_loop].
  - steps.
  - pose proof derived_step_steps. steps.
Qed.

Lemma compute_errors_steps obs : follows R (compute_errors config obs).
Proof. unfold compute_errors. steps. Qed.

Lemma vals_LST_steps c lonObs : follows R (vals_LST config c lonObs).
Proof. pose proof as_array_steps. unfold vals_LST. steps. Qed.

End Steps.

Section Loops.

Variable R : RunState -> RunState -> Prop.
Hypothesis R_refl : forall st, R st st.
Hypothesis R_trans : forall st1 st2 st3, R st1 st2 -> R st2 st3 -> R st1 st3.
Hypothesis R_log : forall lv msg st, R st (emit (Log lv msg) st).
Hypothesis R_forecast : forall path st, R st (emit (ReadForecastFile path) st).
Hypothesis R_observation : forall path st, R st (emit (ReadObservationFile path) st).
Hypothesis R_chunk : forall columns st, R st (emit (AddColumnsChunk columns) st).
Hypothesis R_mask : forall m st, R st (set_mask m st).
Hypothesis R_reference : forall g st, R st (set_ref_geopoints g st).
Hypothesis R_code : forall code st, R st (set_ref_code code st).
Hypothesis R_total : forall n st, R st (add_obsTOT n st).
Hypothesis R_used : forall n st, R st (add_obsUSED n st).

Lemma read_observations_steps c : follows R (read_observations config c).
Proof. unfold read_observations. cbv zeta. steps. Qed.

Lemma base_loop_steps pmin c obs todo l :
  follows R (base_loop config pmin c obs todo l).
Proof.
  revert l. induction todo as [|computation todo IH]; intros l;
    cbn [base_loop]; [steps|].
  apply follows_bind; [exact R_trans| |intros l'; apply IH].
  unfold base_step. apply follows_bind; [exact R_trans| |intros v].
  - apply compute_base_steps; assumption.
  - apply pair_base_steps; assumption.
Qed.

(** The base loop of computations none of which sets the reference
    values. *)
Lemma base_loop_steps_other pmin c obs todo l :
  Forall (fun b => sets_reference config b = false) todo ->
  follows R (base_loop config pmin c obs todo l).
Proof.
  intros Htodo. revert l.
  induction Htodo as [|computation todo Hc Htodo IH]; intros l;
    cbn [base_loop]; [steps|].
  apply follows_bind; [exact R_trans| |intros l'; apply IH].
  unfold base_step. apply follows_bind; [exact R_trans| |intros v].
  - apply compute_base_steps; assumption.
  - apply pair_base_steps_other; assumption.
Qed.

Lemma assemble_rows_steps c obs l : follows R (assemble_rows config c obs l).
Proof.
  assert (Herrors : forall obs', follows R (compute_errors config obs'))
    by (intros; apply compute_errors_steps; assumption).
  assert (HLST : forall lonObs, follows R (vals_LST config c lonObs))
    by (intros; apply vals_LST_steps; assumption).
  unfold assemble_rows. cbv zeta. steps.
Qed.

End Loops.

(** From the parts of a case to the run. *)
Section Layers.

Variable R : RunState -> RunState -> Prop.
Hypothesis R_refl : forall st, R st st.
Hypothesis R_trans : forall st1 st2 st3, R st1 st2 -> R st2 st3 -> R st1 st3.
Hypothesis R_log : forall lv msg st, R st (emit (Log lv msg) st).
Hypothesis R_counter : forall key n st, R st (set_counter key n st).

Lemma process_case_steps pmin c :
  follows R (read_observations config c) ->
  (forall obs l, follows R (base_loop config pmin c obs (base_computations config) l)) ->
  (forall obs l, follows R (assemble_rows config c obs l)) ->
  follows R (process_case config pmin c).
Proof.
  intros Hobs Hbase Hrows. unfold process_case.
  apply follows_bind; [exact R_trans | exact Hobs | intros obs].
  apply follows_bind; [exact R_trans | apply Hbase | intros l].
  apply follows_bind; [exact R_trans | | intros l'; apply Hrows].
  apply derived_loop_steps; assumption.
Qed.

Lemma run_case_steps pmin c :
  follows R (process_case config pmin c) -> follows R (run_case config pmin c).
Proof. intros Hprocess. unfold run_case. cbv zeta. steps. Qed.

Lemma run_cases_steps pmin cases st :
  (forall c, follows R (run_case config pmin c)) ->
  R st (final_state (run_cases config pmin cases st)).
Proof.
  intros Hcase. revert st.
  induction cases as [|c cases IH]; intros st; cbn [run_cases]; [apply R_refl|].
  pose proof (Hcase c st) as Hc.
  destruct (run_case config pmin c st) as [[] st1|st1|exn st1]; cbn [flow_state] in Hc.
  - eapply R_trans; [exact Hc | apply IH].
  - eapply R_trans; [exact Hc | apply IH].
  - exact Hc.
Qed.

Lemma run_steps cases :
  (forall pmin c, follows R (run_case config pmin c)) ->
  R initial_state (final_state (run config cases)).
Proof.
  intros Hcase. unfold run.
  destruct (predictand_min_value config) as [pmin|]; [|apply R_refl].
  apply run_cases_steps, Hcase.
Qed.

End Layers.

(** ** Actions told by the way they end *)

Lemma outcome_follows {A} (P C E : RunState -> RunState -> Prop) (m : M A) :
  follows P m ->
  (forall st st', P st st' -> C st st') ->
  (forall st st', P st st' -> E st st') ->
  outcome P C E m.
Proof.
  intros Hm HC HE st. specialize (Hm st).
  destruct (m st); cbn [flow_state] in Hm; auto.
Qed.

Lemma outcome_bind {A B} (P N C E : RunState -> RunState -> Prop)
    (m : M A) (k : A -> M B) :
  (forall st1 st2 st3, P st1 st2 -> N st2 st3 -> N st1 st3) ->
  (forall st1 st2 st3, P st1 st2 -> C st2 st3 -> C st1 st3) ->
  (forall st1 st2 st3, P st1 st2 -> E st2 st3 -> E st1 st3) ->
  outcome P C E m ->
  (forall a, outcome N C E (k a)) ->
  outcome N C E (bind m k).
Proof.
  intros HN HC HE Hm Hk st. unfold bind. specialize (Hm st).
  destruct (m st) as [a st1|st1|exn st1]; [|exact Hm..].
  specialize (Hk a st1).
  destruct (k a st1) as [b st2|st2|exn st2]; eauto.
Qed.

Ltac advance :=
  repeat first [ rewrite bind_assoc | rewrite bind_logging | rewrite bind_modify
               | rewrite bind_get | rewrite bind_ret | rewrite bind_continue ];
  cbv beta.

(** ** The total of the observations seen *)

Lemma observations_counted_app evs1 evs2 :
  observations_counted (evs1 ++ evs2)
  = observations_counted evs1 + observations_counted evs2.
Proof.
  induction evs1 as [|e evs1 IH]; cbn [app observations_counted List.fold_right];
    [reflexivity|].
  fold (observations_counted (evs1 ++ evs2)). fold (observations_counted evs1).
  rewrite IH. destruct e as [| path | |]; try reflexivity.
  destruct (read_geopoints path); lia.
Qed.

Lemma tallied_refl st : tallied st st.
Proof. exists []. split; [now rewrite List.app_nil_r | cbn; lia]. Qed.

Lemma tallied_trans st1 st2 st3 : tallied st1 st2 -> tallied st2 st3 -> tallied st1 st3.
Proof.
  intros (evs1 & Ht1 & Hn1) (evs2 & Ht2 & Hn2). exists (evs1 ++ evs2). split.
  - now rewrite Ht2, Ht1, List.app_assoc.
  - rewrite observations_counted_app. lia.
Qed.

Lemma tallied_same st st' :
  trace st' = trace st -> obsTOT st' = obsTOT st -> tallied st st'.
Proof.
  intros Ht Hn. exists []. split; [now rewrite List.app_nil_r | cbn; lia].
Qed.

Lemma tallied_log lv msg st : tallied st (emit (Log lv msg) st).
Proof. exists [Log lv msg]. split; [reflexivity | cbn; lia]. Qed.

Lemma tallied_forecast path st : tallied st (emit (ReadForecastFile path) st).
Proof. exists [ReadForecastFile path]. split; [reflexivity | cbn; lia]. Qed.

Lemma tallied_chunk columns st : tallied st (emit (AddColumnsChunk columns) st).
Proof. exists [AddColumnsChunk columns]. split; [reflexivity | cbn; lia]. Qed.

Ltac tally :=
  solve [ exact tallied_refl | exact tallied_trans | exact tallied_log
        | exact tallied_forecast | exact tallied_chunk
        | intros; apply tallied_same; reflexivity ].

(** Lines 199-220: the file counts with all its observations, or with
    none when it does not read. *)
Lemma read_observations_tallied c : follows tallied (read_observations config c).
Proof.
  intros st. unfold read_observations. cbv zeta. advance.
  destruct (read_geopoints (obs_path config c)) as [obs| |] eqn:Hread.
  - case_bool_decide as Hempty; advance; cbn [flow_state continue ret].
    + exists [Log INFO (MReadObservation (obs_path config c));
              ReadObservationFile (obs_path config c);
              Log WARNING (MNoObservation (obs_path config c))].
      split; [cbn [trace emit]; now rewrite <- !List.app_assoc|].
      cbn [observations_counted List.fold_right obsTOT emit]. rewrite Hread, Hempty. lia.
    + exists [Log INFO (MReadObservation (obs_path config c));
              ReadObservationFile (obs_path config c)].
      split; [cbn [trace emit add_obsTOT]; now rewrite <- !List.app_assoc|].
      cbn [observations_counted List.fold_right obsTOT emit add_obsTOT].
      rewrite Hread. lia.
  - advance. cbn [flow_state continue].
    exists [Log INFO (MReadObservation (obs_path config c));
            ReadObservationFile (obs_path config c);
            Log WARNING (MObservationNotFound (obs_path config c))].
    split; [cbn [trace emit]; now rewrite <- !List.app_assoc|].
    cbn [observations_counted List.fold_right obsTOT emit]. rewrite Hread. lia.
  - advance. cbn [flow_state continue].
    exists [Log INFO (MReadObservation (obs_path config c));
            ReadObservationFile (obs_path config c);
            Log ERROR (MObservationReadError (obs_path config c))].
    split; [cbn [trace emit]; now rewrite <- !List.app_assoc|].
    cbn [observations_counted List.fold_right obsTOT emit]. rewrite Hread. lia.
Qed.

Lemma run_case_tallied pmin c : follows tallied (run_case config pmin c).
Proof.
  apply run_case_steps; try tally.
  apply process_case_steps; try tally.
  - apply read_observations_tallied.
  - intros obs l. apply base_loop_steps; tally.
  - intros obs l. apply assemble_rows_steps; tally.
Qed.

(** X11. The total of the observations seen is, at the end of every
    run, however it ends, the sum of the numbers of observations in the
    observation files the run read: a file counts each time it is read,
    with all its observations, whether or not the case then gets its
    forecasts and its rows; a file that does not read counts nothing. *)
Theorem observations_seen_are_counted (cases : list Case) :
  obsTOT (final_state (run config cases))
  = observations_counted (trace (final_state (run config cases))).
Proof.
  destruct (run_steps tallied tallied_refl tallied_trans cases run_case_tallied)
    as (evs & Htrace & Htotal).
  rewrite Htotal, Htrace. reflexivity.
Qed.

(** ** The total of the observations retained *)

Lemma within_refl st : within st st.
Proof. unfold within. lia. Qed.

Lemma within_trans st1 st2 st3 : within st1 st2 -> within st2 st3 -> within st1 st3.
Proof. unfold within. lia. Qed.

Lemma within_same st st' :
  obsTOT st' = obsTOT st -> obsUSED st' = obsUSED st -> within st st'.
Proof. unfold within. lia. Qed.

Lemma untouched_refl st : untouched st st.
Proof. split; reflexivity. Qed.

Lemma untouched_trans st1 st2 st3 :
  untouched st1 st2 -> untouched st2 st3 -> untouched st1 st3.
Proof. unfold untouched. intros [? ?] [? ?]. split; congruence. Qed.

Ltac untouch :=
  solve [ exact untouched_refl | exact untouched_trans
        | intros; split; reflexivity ].

Lemma length_filter_mask {A} (m : list bool) (l : list A) :
  (length (filter_mask m l) <= length l)%nat.
Proof.
  revert l. induction m as [|b m IH]; intros [|x l]; cbn [filter_mask length]; try lia.
  specialize (IH l). destruct b; cbn [length]; lia.
Qed.

(** Lines 199-220, by the way they end. *)
Lemma read_observations_outcome c st :
  match read_observations config c st with
  | Normal obs st' =>
      read_geopoints (obs_path config c) = ROk obs
      /\ obs <> []
      /\ obsTOT st' = obsTOT st + Z.of_nat (length obs)
      /\ obsUSED st' = obsUSED st
      /\ mask st' = mask st
      /\ ref_geopoints st' = ref_geopoints st
  | Continue st' => untouched st st'
  | Raise _ st' => untouched st st'
  end.
Proof.
  unfold read_observations. cbv zeta. advance.
  destruct (read_geopoints (obs_path config c)) as [obs| |] eqn:Hread.
  - case_bool_decide as Hempty; advance; cbn [continue ret]; [untouch|].
    split; [reflexivity|]. split; [now destruct obs|]. repeat split; reflexivity.
  - advance. cbn [continue]. untouch.
  - advance. cbn [continue]. untouch.
Qed.

Lemma retains_at_most_bind {A B} (n : Z) (Q : A -> Prop) (m : M A) (k : A -> M B) :
  0 <= n ->
  follows untouched m ->
  (forall st a st', m st = Normal a st' -> Q a) ->
  (forall a, Q a -> retains_at_most n (k a)) ->
  retains_at_most n (bind m k).
Proof.
  intros Hn Hm HQ Hk st. unfold bind.
  pose proof (Hm st) as [Ht Hu]. pose proof (HQ st) as Hvalue.
  destruct (m st) as [a st1|st1|exn st1]; cbn [flow_state] in *;
    [|lia..].
  destruct (Hk a (Hvalue a st1 eq_refl) st1) as [Ht' Hu']. lia.
Qed.

(** Lines 467-496: the rows are counted, then sent. *)
Lemma send_rows_retains (n : nat) (columns : Geopoints -> Columns) :
  retains_at_most (Z.of_nat n)
    (do modify (add_obsUSED (Z.of_nat n)) in
     do logging INFO MSaving in
     let* ref_geopoints := bound ref_geopoints in
     modify (emit (AddColumnsChunk (columns ref_geopoints)))).
Proof.
  intros st. advance. unfold bind, bound.
  cbn [ref_geopoints emit add_obsUSED].
  destruct (ref_geopoints st); cbn [flow_state modify obsTOT obsUSED emit add_obsUSED]; lia.
Qed.

Lemma retains_at_most_more {A} (n n' : Z) (m : M A) :
  n <= n' -> retains_at_most n m -> retains_at_most n' m.
Proof. intros Hn Hm st. specialize (Hm st). lia. Qed.

Lemma assemble_rows_retains c obs l :
  retains_at_most (Z.of_nat (length obs)) (assemble_rows config c obs l).
Proof.
  unfold assemble_rows. cbv zeta.
  apply (retains_at_most_bind _ (fun obs' => (length obs' <= length obs)%nat)); [lia| | |].
  - pose proof untouched_refl. pose proof untouched_trans. steps.
  - intros st obs' st'. destruct (is_accumulated config).
    + unfold bind, bound. destruct (mask st); [|discriminate].
      intros [= <- _]. apply length_filter_mask.
    + now intros [= <- _].
  - intros obs' Hobs'.
    apply (retains_at_most_bind _ (fun _ => True));
      [lia|intros st; split; reflexivity|auto|intros _ _].
    apply (retains_at_most_bind _ (fun _ => True));
      [lia|apply compute_errors_steps; untouch|auto|intros errors _].
    apply (retains_at_most_bind _ (fun _ => True));
      [lia|apply vals_LST_steps; untouch|auto|intros lst _].
    apply (retains_at_most_more (Z.of_nat (length obs'))); [lia|].
    apply (send_rows_retains (length obs')
             (fun g => columns_of config c obs' g errors lst (computations_result l))).
Qed.

Lemma process_case_within pmin c : follows within (process_case config pmin c).
Proof.
  intros st. unfold process_case. unfold bind at 1.
  pose proof (read_observations_outcome c st) as Hobs.
  destruct (read_observations config c st) as [obs st1|st1|exn st1];
    cbn [flow_state]; [|destruct Hobs; now apply within_same..].
  destruct Hobs as (_ & _ & Htotal & Hused & _).
  assert (Hrest : retains_at_most (Z.of_nat (length obs))
            (let* l := base_loop config pmin c obs (base_computations config)
                         {| computations_cache := ∅; computations_result := [] |} in
             let* l := derived_loop config obs (derived_computations config) l in
             assemble_rows config c obs l)).
  { apply (retains_at_most_bind _ (fun _ => True));
      [lia|apply base_loop_steps; untouch|auto|intros l _].
    apply (retains_at_most_bind _ (fun _ => True));
      [lia|apply derived_loop_steps; untouch|auto|intros l' _].
    apply assemble_rows_retains. }
  destruct (Hrest st1) as [Ht Hu]. unfold within. lia.
Qed.

Lemma run_case_within pmin c : follows within (run_case config pmin c).
Proof.
  apply run_case_steps;
    [exact within_refl | exact within_trans | intros; now apply within_same..
    | apply process_case_within].
Qed.

(** X12. At the end of every run, however it ends, the observations
    retained are no more than the observations seen, and neither total
    is negative. *)
Theorem retained_within_seen (cases : list Case) :
  0 <= obsUSED (final_state (run config cases))
    <= obsTOT (final_state (run config cases)).
Proof.
  pose proof (run_steps within within_refl within_trans cases run_case_within) as H.
  unfold within in H. cbn [obsTOT obsUSED initial_state] in H. lia.
Qed.

(** ** The rows sent to the serializer *)

Ltac hush :=
  solve [ exact quietly_refl | exact quietly_trans
        | intros; apply quietly_emit; reflexivity
        | intros; apply quietly_same_trace; reflexivity ].

Lemma chunks_of_app evs1 evs2 : chunks_of (evs1 ++ evs2) = chunks_of evs1 ++ chunks_of evs2.
Proof. apply List.flat_map_app. Qed.

Lemma chunks_of_quiet evs : Forall (fun e => is_chunk e = false) evs -> chunks_of evs = [].
Proof.
  induction 1 as [|e evs He Hevs IH]; [reflexivity|].
  cbn [chunks_of List.flat_map]. fold (chunks_of evs). rewrite IH.
  destruct e; try reflexivity. discriminate.
Qed.

Lemma total_rows_app chunks1 chunks2 :
  total_rows (chunks1 ++ chunks2) = total_rows chunks1 + total_rows chunks2.
Proof.
  induction chunks1 as [|x chunks1 IH]; cbn [app total_rows List.fold_right]; [reflexivity|].
  fold (total_rows (chunks1 ++ chunks2)). fold (total_rows chunks1). lia.
Qed.

Lemma quietly_one_chunk st1 st2 st3 : quietly st1 st2 -> one_chunk st2 st3 -> one_chunk st1 st3.
Proof.
  intros (Hu & evs1 & Ht1 & Hq1) (evs2 & columns & Ht2 & Hq2 & Hu2 & Hrect).
  exists (evs1 ++ evs2), columns. split; [|split; [|split]].
  - now rewrite Ht2, Ht1, <- !List.app_assoc.
  - now apply List.Forall_app.
  - lia.
  - exact Hrect.
Qed.

Lemma columns_of_rectangular c (obs g : Geopoints) errors lst results :
  rectangular (columns_of config c obs g errors lst results)
  /\ rows (columns_of config c obs g errors lst results) = length obs.
Proof.
  unfold rectangular, observation_columns, columns_of, column. cbv zeta.
  cbn [app List.firstn rows length snd].
  rewrite !length_replicate. split; [split; [reflexivity|]|reflexivity].
  repeat constructor; cbn [snd];
    unfold latitudes, longitudes, get_geopoints_values;
    rewrite ?length_replicate, ?List.length_map; reflexivity.
Qed.

(** Lines 467-496: with the reference values bound, the rows are
    counted and sent; without, the lookup raises. *)
Lemma send_rows_outcome (n : nat) (columns : Geopoints -> Columns) :
  (forall g, rectangular (columns g) /\ rows (columns g) = n) ->
  outcome one_chunk quietly anyhow
    (do modify (add_obsUSED (Z.of_nat n)) in
     do logging INFO MSaving in
     let* ref_geopoints := bound ref_geopoints in
     modify (emit (AddColumnsChunk (columns ref_geopoints)))).
Proof.
  intros Hcolumns st. advance. unfold bind, bound.
  cbn [ref_geopoints emit add_obsUSED].
  destruct (ref_geopoints st) as [g|]; cbn [modify]; [|exact I].
  destruct (Hcolumns g) as [Hrect Hrows].
  exists [Log INFO MSaving], (columns g). split; [|split; [|split]].
  - cbn [trace emit add_obsUSED]. now rewrite <- List.app_assoc.
  - repeat constructor.
  - cbn [obsUSED emit add_obsUSED]. now rewrite Hrows.
  - exact Hrect.
Qed.

Lemma quiet_then {A B} (m : M A) (k : A -> M B) :
  follows quietly m ->
  (forall a, outcome one_chunk quietly anyhow (k a)) ->
  outcome one_chunk quietly anyhow (bind m k).
Proof.
  intros Hm Hk.
  apply (outcome_bind quietly one_chunk quietly anyhow);
    [exact quietly_one_chunk | exact quietly_trans | intros; exact I | | exact Hk].
  apply outcome_follows; [exact Hm | auto | intros; exact I].
Qed.

Lemma assemble_rows_outcome c obs l :
  outcome one_chunk quietly anyhow (assemble_rows config c obs l).
Proof.
  unfold assemble_rows. cbv zeta.
  apply quiet_then; [pose proof quietly_refl; pose proof quietly_trans; steps|intros obs'].
  apply quiet_then; [intros st; now apply quietly_emit|intros _].
  apply quiet_then; [apply compute_errors_steps; hush|intros errors].
  apply quiet_then; [apply vals_LST_steps; hush|intros lst].
  apply (send_rows_outcome (length obs')
           (fun g => columns_of config c obs' g errors lst (computations_result l))).
  intros g. apply columns_of_rectangular.
Qed.

Lemma process_case_outcome pmin c :
  outcome one_chunk quietly anyhow (process_case config pmin c).
Proof.
  unfold process_case.
  apply quiet_then; [apply read_observations_steps; hush|intros obs].
  apply quiet_then; [apply base_loop_steps; hush|intros l].
  apply quiet_then; [apply derived_loop_steps; hush|intros l'].
  apply assemble_rows_outcome.
Qed.

(** A case sends one chunk when it runs to its end, and nothing when
    it is skipped. *)
Lemma run_case_outcome pmin c : outcome one_chunk quietly anyhow (run_case config pmin c).
Proof.
  unfold run_case. cbv zeta.
  apply quiet_then; [intros st; now apply quietly_emit|intros _].
  apply quiet_then; [intros st; now apply quietly_emit|intros _].
  apply quiet_then; [intros st; apply quietly_refl|intros counter].
  destruct (counter !! forecast_key config c).
  - apply quiet_then; [intros st; now apply quietly_emit|intros _].
    intros st. apply quietly_refl.
  - case_bool_decide.
    + apply quiet_then; [intros st; now apply quietly_emit|intros _].
      intros st. apply quietly_refl.
    + apply quiet_then; [intros st; now apply quietly_same_trace|intros _].
      apply process_case_outcome.
Qed.

Lemma run_cases_rows pmin cases st st' :
  run_cases config pmin cases st = inl st' ->
  exists evs,
    trace st' = trace st ++ evs
    /\ obsUSED st' = obsUSED st + total_rows (chunks_of evs)
    /\ Forall rectangular (chunks_of evs)
    /\ (length (chunks_of evs) <= length cases)%nat.
Proof.
  revert st. induction cases as [|c cases IH]; intros st; cbn [run_cases].
  - intros [= <-]. exists []. rewrite List.app_nil_r. cbn. repeat split; [lia|constructor|lia].
  - pose proof (run_case_outcome pmin c st) as Hc.
    destruct (run_case config pmin c st) as [[] st1|st1|exn st1]; [| |discriminate];
      intros Hrest; destruct (IH st1 Hrest) as (evs2 & Ht2 & Hu2 & Hr2 & Hn2).
    + destruct Hc as (evs1 & columns & Ht1 & Hq1 & Hu1 & Hrect).
      exists ((evs1 ++ [AddColumnsChunk columns]) ++ evs2).
      rewrite !chunks_of_app, (chunks_of_quiet evs1 Hq1).
      cbn [chunks_of List.flat_map app total_rows List.fold_right length].
      fold (total_rows (chunks_of evs2)).
      split; [now rewrite Ht2, Ht1, <- !List.app_assoc|].
      split; [lia|]. split; [now constructor | lia].
    + destruct Hc as (Hu1 & evs1 & Ht1 & Hq1).
      exists (evs1 ++ evs2).
      rewrite chunks_of_app, (chunks_of_quiet evs1 Hq1). cbn [app].
      split; [now rewrite Ht2, Ht1, <- !List.app_assoc|].
      split; [lia|]. split; [exact Hr2 | cbn [length]; lia].
Qed.

(** X13. When a run comes to its end, the observations retained are the
    rows sent to the serializer: every chunk has the same number of rows
    in its eight columns of the case, the place and the observation, the
    retained total is the sum of these numbers over the chunks, and
    there are no more chunks than cases. *)
Theorem rows_sent_are_retained (cases : list Case) (st : RunState) :
  run config cases = inl st ->
  obsUSED st = total_rows (chunks_of (trace st))
  /\ Forall rectangular (chunks_of (trace st))
  /\ (length (chunks_of (trace st)) <= length cases)%nat.
Proof.
  unfold run. destruct (predictand_min_value config) as [pmin|]; [|discriminate].
  intros Hrun. destruct (run_cases_rows pmin cases initial_state st Hrun)
    as (evs & Ht & Hu & Hr & Hn).
  cbn [trace obsUSED initial_state app] in Ht, Hu. rewrite Ht.
  split; [lia|]. split; assumption.
Qed.

(** ** A forecast file that does not read *)














(** ** An observation file that gives nothing *)

(** X15. A new case inside the calibration period whose observation
    file is missing, does not parse, or holds no observation is skipped
    after one line of warning (of error when the file does not parse):
    no forecast file is read and no rows are sent; both totals, the mask
    and the reference values are as they were; the forecast stays
    registered under the number of the case. *)
Theorem observation_failure_skips_case (pmin : Q) (c : Case) (st : RunState) :
  counter_used_FC st !! forecast_key config c = None ->
  date_start config <= curr_date c <= date_end config ->
  match read_geopoints (obs_path config c) with
  | ROk obs => obs = []
  | _ => True
  end ->
  let path := obs_path config c in
  let line :=
    match read_geopoints path with
    | ROk _ => Log WARNING (MNoObservation path)
    | RIOError => Log WARNING (MObservationNotFound path)
    | RException => Log ERROR (MObservationReadError path)
    end in
  exists st',
    run_case config pmin c st = Continue st'
    /\ trace st'
       = trace st ++ [Log INFO (MCase (case_no c));
                      Log INFO (MForecast (forecast_key config c));
                      Log INFO (MReadObservation path);
                      ReadObservationFile path;
                      line]
    /\ counter_used_FC st' = <[forecast_key config c := case_no c]> (counter_used_FC st)
    /\ obsTOT st' = obsTOT st
    /\ obsUSED st' = obsUSED st
    /\ mask st' = mask st
    /\ ref_geopoints st' = ref_geopoints st.
Proof.
  intros Hfresh Hperiod Hfile path line. subst path line.
  rewrite (run_case_fresh config pmin c st Hfresh Hperiod).
  unfold process_case, read_observations. cbv zeta. advance.
  destruct (read_geopoints (obs_path config c)) as [obs| |].
  - subst obs. cbn [length]. rewrite bool_decide_eq_true_2 by reflexivity.
    advance. eexists. split; [reflexivity|].
    cbn [trace emit set_counter announced counter_used_FC obsTOT obsUSED mask
         ref_geopoints].
    rewrite <- !List.app_assoc. repeat split; reflexivity.
  - advance. eexists. split; [reflexivity|].
    cbn [trace emit set_counter announced counter_used_FC obsTOT obsUSED mask
         ref_geopoints].
    rewrite <- !List.app_assoc. repeat split; reflexivity.
  - advance. eexists. split; [reflexivity|].
    cbn [trace emit set_counter announced counter_used_FC obsTOT obsUSED mask
         ref_geopoints].
    rewrite <- !List.app_assoc. repeat split; reflexivity.
Qed.

(** ** A predictand that is not accumulated *)

Section Instantaneous.

Hypothesis instantaneous : is_accumulated config = false.

Section InstantaneousSteps.

Variable R : RunState -> RunState -> Prop.
Hypothesis R_refl : forall st, R st st.
Hypothesis R_trans : forall st1 st2 st3, R st1 st2 -> R st2 st3 -> R st1 st3.
Hypothesis R_log : forall lv msg st, R st (emit (Log lv msg) st).
Hypothesis R_forecast : forall path st, R st (emit (ReadForecastFile path) st).
Hypothesis R_chunk : forall columns st, R st (emit (AddColumnsChunk columns) st).
Hypothesis R_reference : forall g st, R st (set_ref_geopoints g st).
Hypothesis R_code : forall code st, R st (set_ref_code code st).
Hypothesis R_used : forall n st, R st (add_obsUSED n st).

Lemma base_loop_instantaneous pmin c obs todo l :
  follows R (base_loop config pmin c obs todo l).
Proof.
  revert l. induction todo as [|computation todo IH]; intros l;
    cbn [base_loop]; [steps|].
  apply follows_bind; [exact R_trans| |intros l'; apply IH].
  unfold base_step. apply follows_bind; [exact R_trans| |intros v].
  - apply compute_base_steps; assumption.
  - assert (Hnearest : forall v' obs', follows R (nearest_gridpoint v' obs'))
      by (intros; apply nearest_gridpoint_steps; assumption).
    unfold pair_base. cbv zeta. rewrite instantaneous. cbv iota. steps.
Qed.

Lemma derived_loop_instantaneous obs todo l :
  follows R (derived_loop config obs todo l).
Proof.
  assert (Hproject : forall v obs', follows R (project config v obs')).
  { intros v obs'.
    assert (Hnearest : forall v' obs'', follows R (nearest_gridpoint v' obs''))
      by (intros; apply nearest_gridpoint_steps; assumption).
    unfold project. rewrite instantaneous. cbv iota. steps. }
  revert l. induction todo as [|computation todo IH]; intros l;
    cbn [derived_loop]; [steps|].
  apply follows_bind; [exact R_trans| |intros l'; apply IH].
  assert (Hlookup : forall cache codes, follows R (cache_lookup cache codes))
    by (intros; apply cache_lookup_steps; assumption).
  assert (Hvalues : forall v, follows R (values_of v))
    by (intros; apply values_of_steps; assumption).
  unfold derived_step. rewrite instantaneous. cbv iota. steps.
Qed.

Lemma assemble_rows_instantaneous c obs l :
  follows R (assemble_rows config c obs l).
Proof.
  assert (Herrors : forall obs', follows R (compute_errors config obs'))
    by (intros; apply compute_errors_steps; assumption).
  assert (HLST : forall lonObs, follows R (vals_LST config c lonObs))
    by (intros; apply vals_LST_steps; assumption).
  unfold assemble_rows. cbv zeta. rewrite instantaneous. cbv iota. steps.
Qed.

End InstantaneousSteps.

Ltac masked := solve [ intros; reflexivity | intros ? ? ? H1 H2; unfold same_mask in *; congruence ].

Lemma run_case_same_mask pmin c : follows same_mask (run_case config pmin c).
Proof.
  apply run_case_steps; try masked.
  unfold process_case.
  assert (Htrans : forall st1 st2 st3, same_mask st1 st2 -> same_mask st2 st3 -> same_mask st1 st3)
    by masked.
  apply follows_bind; [exact Htrans|apply read_observations_steps; masked|intros obs].
  apply follows_bind; [exact Htrans|apply base_loop_instantaneous; masked|intros l].
  apply follows_bind; [exact Htrans|apply derived_loop_instantaneous; masked|intros l'].
  apply assemble_rows_instantaneous; masked.
Qed.

Lemma untouched_retained_more n st1 st2 st3 :
  untouched st1 st2 -> retained_more n st2 st3 -> retained_more n st1 st3.
Proof. unfold untouched, retained_more. intros [? ?] [? ?]. split; congruence. Qed.

Lemma untouched_then {A B} n (m : M A) (k : A -> M B) :
  follows untouched m ->
  (forall a, outcome (retained_more n) anyhow anyhow (k a)) ->
  outcome (retained_more n) anyhow anyhow (bind m k).
Proof.
  intros Hm Hk.
  apply (outcome_bind untouched (retained_more n) anyhow anyhow);
    [apply untouched_retained_more | intros; exact I.. | | exact Hk].
  apply outcome_follows; [exact Hm | intros; exact I..].
Qed.

(** Lines 428-496 without a mask: every observation of the case gets
    its row. *)
Lemma assemble_rows_retains_all c obs l :
  outcome (retained_more (Z.of_nat (length obs))) anyhow anyhow
          (assemble_rows config c obs l).
Proof.
  unfold assemble_rows. cbv zeta. rewrite instantaneous. cbv iota.
  intros st. rewrite bind_ret. revert st.
  apply untouched_then; [intros st; split; reflexivity|intros _].
  apply untouched_then; [apply compute_errors_steps; untouch|intros errors].
  apply untouched_then; [apply vals_LST_steps; untouch|intros lst].
  intros st. advance. unfold bind, bound. cbn [ref_geopoints emit add_obsUSED].
  destruct (ref_geopoints st); cbn [modify]; [|exact I].
  split; reflexivity.
Qed.

Lemma process_case_retains_all pmin c st st' :
  process_case config pmin c st = Normal tt st' ->
  obsUSED st' - obsUSED st = obsTOT st' - obsTOT st /\ obsTOT st < obsTOT st'.
Proof.
  unfold process_case. unfold bind at 1.
  pose proof (read_observations_outcome c st) as Hobs.
  destruct (read_observations config c st) as [obs st1|st1|exn st1]; [|discriminate..].
  destruct Hobs as (_ & Hsome & Htotal & Hused & _).
  assert (Hrest : outcome (retained_more (Z.of_nat (length obs))) anyhow anyhow
            (let* l := base_loop config pmin c obs (base_computations config)
                         {| computations_cache := ∅; computations_result := [] |} in
             let* l := derived_loop config obs (derived_computations config) l in
             assemble_rows config c obs l)).
  { apply untouched_then; [apply base_loop_steps; untouch|intros l].
    apply untouched_then; [apply derived_loop_steps; untouch|intros l'].
    apply assemble_rows_retains_all. }
  specialize (Hrest st1). intros Hrun. rewrite Hrun in Hrest.
  destruct Hrest as [Ht Hu].
  assert (0 < length obs)%nat by (destruct obs; [contradiction | cbn; lia]).
  lia.
Qed.

(** X16. With a predictand that is not accumulated the run never binds
    the mask, and a case that runs to its end retains every observation
    of its file: both totals grow by the same number, which is
    positive, and the mask is left as it was. *)
Theorem instantaneous_retains_all :
  (forall cases, mask (final_state (run config cases)) = None)
  /\ (forall pmin c st st',
        run_case config pmin c st = Normal tt st' ->
        mask st' = mask st
        /\ obsUSED st' - obsUSED st = obsTOT st' - obsTOT st
        /\ obsTOT st < obsTOT st').
Proof.
  split.
  - intros cases.
    apply (run_steps same_mask); [masked | masked | apply run_case_same_mask].
  - intros pmin c st st' Hrun. split.
    + pose proof (run_case_same_mask pmin c st) as Hmask.
      rewrite Hrun in Hmask. exact Hmask.
    + destruct (counter_used_FC st !! forecast_key config c) as [n|] eqn:Hkey.
      { rewrite (run_case_registered config pmin c st n Hkey) in Hrun. discriminate. }
      destruct (decide (curr_date c < date_start config \/ curr_date c > date_end config))
        as [Hout|Hin].
      { rewrite (run_case_out_of_period config pmin c st Hkey Hout) in Hrun.
        discriminate. }
      rewrite (run_case_fresh config pmin c st Hkey) in Hrun by lia.
      apply process_case_retains_all in Hrun. exact Hrun.
Qed.

End Instantaneous.

(** ** No computation that sets the reference values *)

Section Unreferenced.

Hypothesis unreferenced :
  Forall (fun b => sets_reference config b = false) (base_computations config).

Lemma dry_refl st : dry st st.
Proof. intros Href. split; [exact Href | apply silently_refl]. Qed.

Lemma dry_trans st1 st2 st3 : dry st1 st2 -> dry st2 st3 -> dry st1 st3.
Proof.
  intros H12 H23 Href. destruct (H12 Href) as [Href2 Hs12].
  destruct (H23 Href2) as [Href3 Hs23]. split; [exact Href3|].
  eapply silently_trans; eassumption.
Qed.

Lemma dry_emit e st : is_chunk e = false -> dry st (emit e st).
Proof. intros He Href. split; [exact Href | now apply silently_emit]. Qed.

Lemma dry_same st st' :
  ref_geopoints st' = ref_geopoints st -> trace st' = trace st -> dry st st'.
Proof.
  intros Hr Ht Href. split; [congruence | now apply silently_same_trace].
Qed.

Ltac dried :=
  solve [ exact dry_refl | exact dry_trans
        | intros; apply dry_emit; reflexivity
        | intros; apply dry_same; reflexivity ].

(** Line 489: the rows wait for the reference values. *)
Lemma send_chunk_dry (columns : Geopoints -> Columns) :
  follows dry (let* ref_geopoints := bound ref_geopoints in
               modify (emit (AddColumnsChunk (columns ref_geopoints)))).
Proof.
  intros st Href. unfold bind, bound. rewrite Href. cbn [flow_state].
  split; [exact Href | apply silently_refl].
Qed.

Lemma assemble_rows_dry c obs l : follows dry (assemble_rows config c obs l).
Proof.
  assert (Herrors : forall obs', follows dry (compute_errors config obs'))
    by (intros; apply compute_errors_steps; dried).
  assert (HLST : forall lonObs, follows dry (vals_LST config c lonObs))
    by (intros; apply vals_LST_steps; dried).
  assert (Hrefl := dry_refl). assert (Htrans := dry_trans).
  assert (Hlog : forall lv msg st, dry st (emit (Log lv msg) st)) by dried.
  assert (Hused : forall n st, dry st (add_obsUSED n st)) by dried.
  unfold assemble_rows. cbv zeta.
  apply follows_bind; [exact Htrans|steps|intros obs'].
  apply follows_bind; [exact Htrans|steps|intros _].
  apply follows_bind; [exact Htrans|apply Herrors|intros errors].
  apply follows_bind; [exact Htrans|apply HLST|intros lst].
  apply follows_bind; [exact Htrans|steps|intros _].
  apply follows_bind; [exact Htrans|steps|intros _].
  apply (send_chunk_dry
           (fun g => columns_of config c obs' g errors lst (computations_result l))).
Qed.

Lemma run_case_dry pmin c : follows dry (run_case config pmin c).
Proof.
  apply run_case_steps; try dried.
  apply process_case_steps; try dried.
  - apply read_observations_steps; dried.
  - intros obs l. apply base_loop_steps_other; [dried..|exact unreferenced].
  - intros obs l. apply assemble_rows_dry.
Qed.

(** X17. When no base computation is both a reference (its only input
    the predictand) and post-processed, the reference values are never
    bound: no case runs to its end and no run sends a single row,
    whatever the files hold. *)
Theorem no_reference_no_rows :
  (forall cases,
     ref_geopoints (final_state (run config cases)) = None
     /\ chunks_of (trace (final_state (run config cases))) = [])
  /\ (forall pmin c st st',
        ref_geopoints st = None -> run_case config pmin c st <> Normal tt st').
Proof.
  split.
  - intros cases.
    destruct (run_steps dry dry_refl dry_trans cases run_case_dry eq_refl)
      as (Href & evs & Htrace & Hquiet).
    split; [exact Href|]. rewrite Htrace. cbn [trace initial_state app].
    now apply chunks_of_quiet.
  - intros pmin c st st' Href Hrun.
    pose proof (run_case_dry pmin c st Href) as [_ (evs & Htrace & Hquiet)].
    pose proof (run_case_outcome pmin c st) as Hrows.
    rewrite Hrun in Htrace, Hrows. cbn [flow_state] in Htrace.
    destruct Hrows as (evs' & columns & Htrace' & _).
    rewrite Htrace in Htrace'. apply List.app_inv_head in Htrace'. subst evs.
    apply List.Forall_app in Hquiet as [_ Hchunk].
    apply List.Forall_cons_iff in Hchunk as [Hchunk _]. discriminate.
Qed.

End Unreferenced.

End CaseFacts.

(** * The encoder of the point data table *)

Section EncoderFacts.

Import Processor AsciiLoader.

Lemma append_assoc (s1 s2 s3 : string) : (s1 +:+ s2) +:+ s3 = s1 +:+ (s2 +:+ s3).
Proof.
  induction s1 as [|a s1 IH]; [reflexivity|].
  change (String a ((s1 +:+ s2) +:+ s3) = String a (s1 +:+ (s2 +:+ s3))).
  now rewrite IH.
Qed.

Lemma append_nil_r (s : string) : s +:+ "" = s.
Proof.
  induction s as [|a s IH]; [reflexivity|].
  change (String a (s +:+ "") = String a s). now rewrite IH.
Qed.

Lemma write_a_same target text fs :
  write_a target text fs !! target = Some (default "" (fs !! target) +:+ text).
Proof. unfold write_a. apply lookup_insert_eq. Qed.

Lemma write_a_other target text fs p :
  p <> target -> write_a target text fs !! p = fs !! p.
Proof. intros Hp. unfold write_a. now apply lookup_insert_ne. Qed.

(** ** [OrderedDict] *)











(** ** The file the encoder writes *)

Context `{P : Pandas}.

Lemma add_chunks_cons self columns chunks fs :
  add_chunks self (columns :: chunks) fs
  = add_chunks (fst (add_columns_chunk self columns fs)) chunks
               (snd (add_columns_chunk self columns fs)).
Proof.
  unfold add_chunks. cbn [List.fold_left fst snd].
  now destruct (add_columns_chunk self columns fs).
Qed.

Lemma table_text_without_names chunks :
  table_text false chunks
  = List.fold_right
      (fun columns text =>
         to_string (from_dict (OrderedDict columns)) false +:+ newline +:+ text)
      "" chunks.
Proof. destruct chunks; reflexivity. Qed.

Lemma add_columns_chunk_later self columns fs :
  first_chunk_address_added self = true ->
  add_columns_chunk self columns fs
  = (self,
     write_a (path self) newline
       (write_a (path self) (to_string (from_dict (OrderedDict columns)) false) fs)).
Proof. intros Hflag. unfold add_columns_chunk. now rewrite Hflag. Qed.

Lemma add_columns_chunk_first self columns fs :
  first_chunk_address_added self = false ->
  add_columns_chunk self columns fs
  = ({| path := path self; first_chunk_address_added := true |},
     write_a (path self) newline
       (write_a (path self) (to_string (from_dict (OrderedDict columns)) true) fs)).
Proof. intros Hflag. unfold add_columns_chunk. now rewrite Hflag. Qed.

(** The chunks after the first: appended without the column names. *)
Lemma add_chunks_later self chunks fs content :
  first_chunk_address_added self = true ->
  fs !! path self = Some content ->
  fst (add_chunks self chunks fs) = self
  /\ snd (add_chunks self chunks fs) !! path self
     = Some (content +:+ table_text false chunks)
  /\ forall p, p <> path self -> snd (add_chunks self chunks fs) !! p = fs !! p.
Proof.
  intros Hflag. rewrite table_text_without_names.
  revert fs content. induction chunks as [|columns chunks IH]; intros fs content Hfile.
  - cbn [add_chunks List.fold_left fst snd List.fold_right].
    rewrite append_nil_r. auto.
  - rewrite add_chunks_cons, (add_columns_chunk_later _ _ _ Hflag).
    cbn [fst snd List.fold_right].
    set (text := to_string (from_dict (OrderedDict columns)) false).
    destruct (IH (write_a (path self) newline (write_a (path self) text fs))
                 ((content +:+ text) +:+ newline)) as (Hself & Hcontent & Hothers).
    { rewrite write_a_same, write_a_same, Hfile. reflexivity. }
    split; [exact Hself|]. split.
    + rewrite Hcontent. now rewrite !append_assoc.
    + intros p Hp. rewrite (Hothers p Hp). now rewrite !write_a_other.
Qed.

Lemma add_chunks_content self chunks fs content :
  fs !! path self = Some content ->
  path (fst (add_chunks self chunks fs)) = path self
  /\ first_chunk_address_added (fst (add_chunks self chunks fs))
     = first_chunk_address_added self || bool_decide (chunks <> [])
  /\ snd (add_chunks self chunks fs) !! path self
     = Some (content +:+ table_text (negb (first_chunk_address_added self)) chunks)
  /\ forall p, p <> path self -> snd (add_chunks self chunks fs) !! p = fs !! p.
Proof.
  intros Hfile.
  destruct (first_chunk_address_added self) eqn:Hflag; cbn [negb orb].
  - destruct (add_chunks_later self chunks fs content Hflag Hfile)
      as (Hself & Hcontent & Hothers).
    rewrite Hself. auto.
  - destruct chunks as [|columns chunks].
    + cbn [add_chunks List.fold_left fst snd table_text].
      rewrite append_nil_r, bool_decide_eq_false_2 by auto. auto.
    + rewrite add_chunks_cons, (add_columns_chunk_first _ _ _ Hflag).
      cbn [fst snd].
      set (text := to_string (from_dict (OrderedDict columns)) true).
      set (self' := {| path := path self; first_chunk_address_added := true |}).
      destruct (add_chunks_later self' chunks
                  (write_a (path self) newline (write_a (path self) text fs))
                  ((content +:+ text) +:+ newline) eq_refl)
        as (Hself & Hcontent & Hothers).
      { cbn [path self']. rewrite write_a_same, write_a_same, Hfile. reflexivity. }
      rewrite Hself. cbn [path first_chunk_address_added self'] in *.
      rewrite bool_decide_eq_true_2 by discriminate.
      split; [reflexivity|]. split; [reflexivity|]. split.
      * rewrite Hcontent. cbn [table_text]. fold text.
        rewrite table_text_without_names. now rewrite !append_assoc.
      * intros p Hp. rewrite (Hothers p Hp). now rewrite !write_a_other.
Qed.

(** X19. What the encoder leaves in its file after the header, the
    chunks and the footer of a run: the header, an empty line, the
    chunks one after the other with a line break after each, and the
    footer; whatever the file held before is gone and no other file is
    touched.  The column names are written with the first chunk of an
    encoder that has not written a chunk yet, and with no other chunk:
    an encoder that has written one (the header written anew or not)
    writes every further chunk without them. *)
Theorem encoder_writes_table
    (self : ASCIIEncoder) (header footer : string) (chunks : list Columns)
    (fs : gmap string string) :
  let started := add_header self header fs in
  let written := add_chunks self chunks started in
  let closed := add_footer (fst written) footer (snd written) in
  closed !! path self
  = Some (header +:+ newline +:+ newline
          +:+ table_text (negb (first_chunk_address_added self)) chunks
          +:+ footer)
  /\ (forall p, p <> path self -> closed !! p = fs !! p)
  /\ path (fst written) = path self
  /\ first_chunk_address_added (fst written)
     = first_chunk_address_added self || bool_decide (chunks <> []).
Proof.
  intros started written closed.
  assert (Hstarted : started !! path self = Some (header +:+ newline +:+ newline)).
  { subst started. unfold add_header, open_w.
    rewrite write_a_same, write_a_same, lookup_insert_eq. reflexivity. }
  destruct (add_chunks_content self chunks started _ Hstarted)
    as (Hpath & Hflag & Hcontent & Hothers).
  fold written in Hpath, Hflag, Hcontent, Hothers.
  split; [|split; [|split; assumption]].
  - subst closed. unfold add_footer. rewrite Hpath, write_a_same, Hcontent.
    cbn [default from_option id]. now rewrite !append_assoc.
  - intros p Hp. subst closed. unfold add_footer.
    rewrite Hpath, write_a_other, (Hothers p Hp) by exact Hp.
    subst started. unfold add_header, open_w.
    now rewrite !write_a_other, lookup_insert_ne by congruence.
Qed.

End EncoderFacts.

(** * The runner on more configurations *)

Section MoreWorked.

Import Processor CaseSpec Accounting Examples Examples2.
Local Open Scope Z_scope.

Ltac computed := vm_compute; first [reflexivity | split; discriminate | discriminate].

(** Two cases with the same forecast: the first sends its two rows,
    the second is skipped. *)
Lemma rows_sent_are_retained_witness :
  obsUSED (final_state (run (W := latitude_world) cfg6 [case1; case2]))
  = total_rows (chunks_of (trace (final_state
                                    (run (W := latitude_world) cfg6 [case1; case2]))))
  /\ Forall rectangular
       (chunks_of (trace (final_state (run (W := latitude_world) cfg6 [case1; case2]))))
  /\ (length (chunks_of (trace (final_state
                                  (run (W := latitude_world) cfg6 [case1; case2]))))
      <= length [case1; case2])%nat.
Proof.
  apply (rows_sent_are_retained (W := latitude_world) cfg6 [case1; case2]
           (final_state (run (W := latitude_world) cfg6 [case1; case2]))).
  computed.
Defined.

Example two_rows_in_one_chunk :
  List.map rows (chunks_of (trace (final_state
                                     (run (W := latitude_world) cfg6 [case1; case2]))))
  = [2%nat].
Proof. computed. Qed.

(** The first case without its observation file, and with a file that
    holds no observation. *)
Lemma observation_failure_skips_case_witness :
  (let path := obs_path (W := no_observation_world) cfg6 case1 in
   let line :=
     match read_geopoints (World := no_observation_world) path with
     | ROk _ => Log WARNING (MNoObservation path)
     | RIOError => Log WARNING (MObservationNotFound path)
     | RException => Log ERROR (MObservationReadError path)
     end in
   exists st',
     run_case (W := no_observation_world) cfg6 1 case1 initial_state = Continue st'
     /\ trace st'
        = trace initial_state ++ [Log INFO (MCase (case_no case1));
                                  Log INFO (MForecast (forecast_key (W := no_observation_world) cfg6 case1));
                                  Log INFO (MReadObservation path);
                                  ReadObservationFile path;
                                  line]
     /\ counter_used_FC st'
        = <[forecast_key (W := no_observation_world) cfg6 case1 := case_no case1]> (counter_used_FC initial_state)
     /\ obsTOT st' = obsTOT initial_state
     /\ obsUSED st' = obsUSED initial_state
     /\ mask st' = mask initial_state
     /\ ref_geopoints st' = ref_geopoints initial_state)
  /\ read_geopoints (World := empty_observation_world)
       (obs_path (W := empty_observation_world) cfg6 case1) = ROk [].
Proof.
  split; [|reflexivity].
  apply (observation_failure_skips_case (W := no_observation_world) cfg6 1 case1
           initial_state ltac:(computed) ltac:(computed) I).
Defined.

Example empty_observation_file_skips_case :
  exists st',
    run_case (W := empty_observation_world) cfg6 1 case1 initial_state = Continue st'
    /\ List.last (trace st') (Log INFO MSaving)
       = Log WARNING (MNoObservation (obs_path (W := empty_observation_world) cfg6 case1))
    /\ obsTOT st' = 0.
Proof. eexists. split; [computed|]. split; reflexivity. Qed.

(** Temperature at an instant: the three observations of the first
    case are all retained and no mask is bound. *)
Lemma instantaneous_retains_all_witness :
  mask (final_state (run (W := latitude_world) temperature_config [case1; case2])) = None
  /\ (let st' := flow_state (run_case (W := latitude_world) temperature_config 0 case1
                                      initial_state) in
      mask st' = mask initial_state
      /\ obsUSED st' - obsUSED initial_state = obsTOT st' - obsTOT initial_state
      /\ obsTOT initial_state < obsTOT st').
Proof.
  split.
  - apply (instantaneous_retains_all (W := latitude_world) temperature_config eq_refl).
  - apply (proj2 (instantaneous_retains_all (W := latitude_world) temperature_config
                    eq_refl) 0%Q case1 initial_state).
    computed.
Defined.

Example temperature_case_retains_three :
  obsUSED (flow_state (run_case (W := latitude_world) temperature_config 0 case1
                                initial_state)) = 3.
Proof. computed. Qed.

(** Rainfall with a reference that is not post-processed: the first
    case raises at the lookup of the mask and the run ends without a
    row. *)
Lemma no_reference_no_rows_witness :
  (ref_geopoints (final_state (run (W := latitude_world) hidden_reference_config
                                   [case1; case2])) = None
   /\ chunks_of (trace (final_state (run (W := latitude_world) hidden_reference_config
                                         [case1; case2]))) = [])
  /\ run_case (W := latitude_world) hidden_reference_config 1 case1 initial_state
     <> Normal tt initial_state
  /\ exists st, run (W := latitude_world) hidden_reference_config [case1; case2]
                = inr (NameError, st).
Proof.
  assert (Hhidden : Forall (fun b => sets_reference hidden_reference_config b = false)
                           (base_computations hidden_reference_config)).
  { vm_compute. repeat constructor. }
  split; [|split].
  - apply (no_reference_no_rows (W := latitude_world) hidden_reference_config Hhidden).
  - apply (proj2 (no_reference_no_rows (W := latitude_world) hidden_reference_config
                    Hhidden)).
    reflexivity.
  - eexists. computed.
Defined.


End MoreWorked.

(** * The inputs of the derived computations *)

Section DerivedFacts.

Import Processor CaseSpec Accounting.
Local Open Scope Z_scope.

Context `{W : World}.
Variable config : Config.

Lemma yields_ret {A} (a : A) (Q : A -> Prop) : Q a -> yields (ret a) Q.
Proof. intros Ha st a' st' [= <- _]. exact Ha. Qed.

Lemma yields_bind {A B} (m : M A) (k : A -> M B) (Q : B -> Prop) :
  (forall a, yields (k a) Q) -> yields (bind m k) Q.
Proof.
  intros Hk st b st' Hrun. apply bind_Normal_inv in Hrun as (a & st1 & _ & Hrun).
  eapply Hk, Hrun.
Qed.

Lemma yields_continue {A} (Q : A -> Prop) : yields continue Q.
Proof. intros st a st'. discriminate. Qed.

Lemma yields_raise {A} exn (Q : A -> Prop) : yields (raise exn) Q.
Proof. intros st a st'. discriminate. Qed.

Ltac yielding :=
  repeat first
    [ apply yields_ret; reflexivity
    | apply yields_continue
    | apply yields_raise
    | apply yields_bind; intros ?
    | match goal with
      | |- yields (if ?b then _ else _) _ => destruct b
      | |- yields (match ?x with _ => _ end) _ => destruct x
      end ].

(** Lines 331-381: the value goes to the cache under the short name of
    the computation, and nothing else does. *)
Lemma pair_base_cache pmin obs computation v l :
  yields (pair_base config pmin obs computation v l)
         (fun l' => computations_cache l'
                    = <[shortname computation := v]> (computations_cache l)).
Proof. unfold pair_base. cbv zeta. yielding. Qed.

Lemma base_loop_cache pmin c obs todo l :
  yields (base_loop config pmin c obs todo l)
         (fun l' => forall code,
            computations_cache l' !! code <> None ->
            computations_cache l !! code <> None
            \/ code ∈ List.map shortname todo).
Proof.
  revert l. induction todo as [|b todo IH]; intros l; cbn [base_loop List.map].
  - apply yields_ret. auto.
  - intros st l' st' Hrun.
    apply bind_Normal_inv in Hrun as (l1 & st1 & Hstep & Hrest).
    unfold base_step in Hstep.
    apply bind_Normal_inv in Hstep as (v & st0 & _ & Hpair).
    apply pair_base_cache in Hpair. apply IH in Hrest.
    intros code Hcode. destruct (Hrest code Hcode) as [Hin|Hin].
    + rewrite Hpair in Hin.
      destruct (decide (shortname b = code)) as [<-|Hne].
      * right. constructor.
      * rewrite lookup_insert_ne in Hin by exact Hne. now left.
    + right. now constructor.
Qed.

(** Lines 386-426: the results of the derived computations are not
    cached. *)
Lemma derived_step_cache obs computation l :
  yields (derived_step config obs computation l)
         (fun l' => computations_cache l' = computations_cache l).
Proof. unfold derived_step. yielding. Qed.

Lemma cache_lookup_missing cache codes code st vs st' :
  code ∈ codes -> cache !! code = None ->
  cache_lookup cache codes st <> Normal vs st'.
Proof.
  intros Hin Hmiss. revert vs st'.
  induction codes as [|code' codes IH]; intros vs st'; [now apply elem_of_nil in Hin|].
  cbn [cache_lookup]. intros Hrun.
  apply bind_Normal_inv in Hrun as (v & st1 & Hv & Hrun).
  apply from_option_Normal in Hv as [Hv ->].
  apply bind_Normal_inv in Hrun as (vs' & st2 & Hrest & _).
  apply elem_of_cons in Hin as [->|Hin]; [congruence|].
  now apply (IH Hin vs' st2).
Qed.

Lemma derived_loop_missing obs todo l d code st l' st' :
  d ∈ todo -> code ∈ inputs d -> computations_cache l !! code = None ->
  derived_loop config obs todo l st <> Normal l' st'.
Proof.
  intros Hd Hcode. revert l st.
  induction todo as [|x todo IH]; intros l st Hmiss; [now apply elem_of_nil in Hd|].
  cbn [derived_loop]. intros Hrun.
  apply bind_Normal_inv in Hrun as (l1 & st1 & Hstep & Hrest).
  apply elem_of_cons in Hd as [<-|Hd].
  - unfold derived_step in Hstep.
    apply bind_Normal_inv in Hstep as (vs & st2 & Hlookup & _).
    now apply (cache_lookup_missing _ _ code st vs st2 Hcode Hmiss).
  - apply derived_step_cache in Hstep.
    apply (IH Hd l1 st1); [congruence | exact Hrest].
Qed.

(** X20. The inputs of a derived computation are looked up, by short
    name, among the values the base computations of the case left; the
    results of derived computations are not kept.  So with a derived
    computation one of whose inputs is the short name of no base
    computation, no case runs to its end: a case that gets to the
    derived computations raises at the lookup. *)
Theorem derived_input_must_be_base (d : Computation) (code : string) :
  d ∈ derived_computations config ->
  code ∈ inputs d ->
  (forall b, b ∈ base_computations config -> shortname b <> code) ->
  forall pmin c st st', run_case config pmin c st <> Normal tt st'.
Proof.
  intros Hd Hcode Hbase pmin c st st' Hrun.
  destruct (counter_used_FC st !! forecast_key config c) as [n|] eqn:Hkey.
  { rewrite (run_case_registered config pmin c st n Hkey) in Hrun. discriminate. }
  destruct (decide (curr_date c < date_start config \/ curr_date c > date_end config))
    as [Hout|Hin].
  { rewrite (run_case_out_of_period config pmin c st Hkey Hout) in Hrun. discriminate. }
  rewrite (run_case_fresh config pmin c st Hkey) in Hrun by lia.
  unfold process_case in Hrun.
  apply bind_Normal_inv in Hrun as (obs & st1 & _ & Hrun).
  apply bind_Normal_inv in Hrun as (l & st2 & Hloop & Hrun).
  apply bind_Normal_inv in Hrun as (l' & st3 & Hderived & _).
  apply base_loop_cache in Hloop.
  apply (derived_loop_missing obs _ l d code st2 l' st3 Hd Hcode); [|exact Hderived].
  destruct (computations_cache l !! code) eqn:Hcached; [|reflexivity].
  exfalso. destruct (Hloop code) as [Hin'|Hin'].
  - rewrite Hcached. discriminate.
  - cbn [computations_cache] in Hin'. rewrite lookup_empty in Hin'. now apply Hin'.
  - apply list_elem_of_In, List.in_map_iff in Hin' as (b & Hname & Hb).
    apply (Hbase b); [now apply list_elem_of_In | exact Hname].
Qed.

End DerivedFacts.

Section DerivedWorked.

Import Processor Accounting Examples Examples2.

(** The ratio of [cape_wa] to [tp_acc] without a computation [cape_wa]:
    the first case raises [KeyError]. *)
Lemma derived_input_must_be_base_witness :
  run_case (W := latitude_world) dangling_config 1 case1 initial_state
  <> Normal tt initial_state
  /\ exists st, run (W := latitude_world) dangling_config [case1] = inr (KeyError, st).
Proof.
  split.
  - apply (derived_input_must_be_base (W := latitude_world) dangling_config
             ratio "cape_wa").
    + vm_compute. constructor.
    + vm_compute. constructor.
    + intros b Hb. vm_compute in Hb.
      apply list_elem_of_singleton in Hb as ->. discriminate.
  - eexists. vm_compute. reflexivity.
Defined.

End DerivedWorked.
